(** * gptpdf: the layout segmentation engine of [gptpdf/parse_EN.py]

    A shallow embedding of the geometric core of the PDF parser
    ([_is_near], [_is_horizontal_near], [_union_rects], [_merge_rects],
    [_adsorb_rects_to_rects], [_parse_rects]) and the properties its
    specification states about it.

    Modelling conventions.
    - Python floats are idealised as exact rationals ([Qc], canonical
      fractions, so that Python's [==] on numbers is Leibniz equality).
    - The shapely library is an interface ([Shapely]); the engine is written
      against it, the way the source is.  [Ideal] is an instance: exact
      Euclidean geometry of boxes, their buffers and unions.
    - Python lists are modelled twice: by value ([list]) for what the
      functions compute, and as objects in a store ([heap]) for what they do
      to the lists of their caller.  The two are related by refinement
      lemmas.
    - A loop runs on fuel; [None] is a run that raised or ran out of fuel,
      and the totality lemmas show that neither happens. *)

From Stdlib Require Import Ascii String QArith Qcanon Qcabs Lqa.
From stdpp Require Import base numbers list option strings gmap pretty.

Local Open Scope Qc_scope.
Local Open Scope list_scope.

(** ** Numbers *)

(** A float literal of the source, as a canonical rational: [fl 0.1],
    [fl 100.05], [fl 20]. *)
Definition fl (x : Q) : Qc := Q2Qc x.
Arguments fl x%_Q.

Definition Qc_min (a b : Qc) : Qc := if decide (a ≤ b) then a else b.
Definition Qc_max (a b : Qc) : Qc := if decide (a ≤ b) then b else a.

(** Order goals over [Qc] are sent to [lra] over [Q]. *)
Ltac qc_order :=
  repeat match goal with
         | |- context [Qc_min ?a ?b] => unfold Qc_min
         | |- context [Qc_max ?a ?b] => unfold Qc_max
         | H : context [Qc_min ?a ?b] |- _ => unfold Qc_min in H
         | H : context [Qc_max ?a ?b] |- _ => unfold Qc_max in H
         end;
  repeat case_decide;
  try match goal with |- @eq Qc _ _ => apply Qc_is_canon end;
  unfold Qcle, Qclt in *; simpl in *;
  repeat match goal with
         | |- context [Qred ?q] => rewrite (Qred_correct q)
         | H : context [Qred ?q] |- _ => rewrite (Qred_correct q) in H
         end;
  try lra.

(** ** Rectangles as 4-tuples [(x0, y0, x1, y1)]

    [b[0]] is [x0 b], [b[1]] is [y0 b], [b[2]] is [x1 b] and [b[3]] is
    [y1 b].  The type is shared by shapely's [.bounds], by the [rect] of a
    drawing, by the [bbox] of an image and by the first four fields of a text
    block. *)

Record Bounds : Type := Tuple4 { x0 : Qc; y0 : Qc; x1 : Qc; y1 : Qc }.

#[global] Instance Bounds_eq_dec : EqDecision Bounds.
Proof. solve_decision. Defined.

(** Smallest box around two boxes. *)
Definition hull (a b : Bounds) : Bounds :=
  Tuple4 (Qc_min (x0 a) (x0 b)) (Qc_min (y0 a) (y0 b))
         (Qc_max (x1 a) (x1 b)) (Qc_max (y1 a) (y1 b)).

(** [covers a b]: the box [a] contains the box [b]. *)
Definition covers (a b : Bounds) : Prop :=
  x0 a ≤ x0 b ∧ y0 a ≤ y0 b ∧ x1 b ≤ x1 a ∧ y1 b ≤ y1 a.

Definition ordered (b : Bounds) : Prop := x0 b ≤ x1 b ∧ y0 b ≤ y1 b.

(** ** The shapely interface

    What the engine uses of shapely: [sg.box], [.bounds], [.buffer],
    [.distance] (only ever compared with [<]; the distance itself may be
    irrational, so the interface offers the comparison), [.union],
    [explain_validity] and [==], on the geometries that are not empty (the
    engine builds no other).  The laws are the part of shapely's contract
    the properties below rely on. *)

Class Shapely : Type := {
  BaseGeometry : Type;
  geometry_eq_dec :: EqDecision BaseGeometry;
  (** [sg.box(minx, miny, maxx, maxy)] *)
  box : Qc → Qc → Qc → Qc → BaseGeometry;
  (** [g.bounds] *)
  bounds : BaseGeometry → Bounds;
  (** [g.buffer(r)] *)
  buffer : BaseGeometry → Qc → BaseGeometry;
  (** [g.distance(h) < d] *)
  distance_lt : BaseGeometry → BaseGeometry → Qc → bool;
  (** [g.union(h)] *)
  union : BaseGeometry → BaseGeometry → BaseGeometry;
  (** [explain_validity(g)] *)
  explain_validity : BaseGeometry → string;
  bounds_ordered : ∀ g, ordered (bounds g);
  bounds_box : ∀ a b c d,
    bounds (box a b c d) = Tuple4 (Qc_min a c) (Qc_min b d) (Qc_max a c) (Qc_max b d);
  bounds_union : ∀ g h, bounds (union g h) = hull (bounds g) (bounds h);
  distance_lt_sym : ∀ g h d, distance_lt g h d = distance_lt h g d;
}.

(** [sg.box( *b )]: a box from an unpacked 4-tuple. *)
Definition box_of `{Shapely} (b : Bounds) : BaseGeometry :=
  box (x0 b) (y0 b) (x1 b) (y1 b).

(** ** Geometry predicates *)

Section Predicates.
Context `{Shapely}.

Definition _is_near (rect1 rect2 : BaseGeometry) (distance : Qc) : bool :=
  distance_lt (buffer rect1 (fl 0.1)) (buffer rect2 (fl 0.1)) distance.

Definition _is_horizontal_near (rect1 rect2 : BaseGeometry) (distance : Qc) : bool :=
  let result := false in
  if bool_decide (Qcabs (y1 (bounds rect1) - y0 (bounds rect1)) < fl 0.1)
     || bool_decide (Qcabs (y1 (bounds rect2) - y0 (bounds rect2)) < fl 0.1)
  then
    if bool_decide (Qcabs (x0 (bounds rect1) - x0 (bounds rect2)) < fl 0.1)
       && bool_decide (Qcabs (x1 (bounds rect1) - x1 (bounds rect2)) < fl 0.1)
    then bool_decide (Qcabs (y1 (bounds rect1) - y1 (bounds rect2)) < distance)
    else result
  else result.

Definition _union_rects (rect1 rect2 : BaseGeometry) : BaseGeometry :=
  box_of (bounds (union rect1 rect2)).

(** [x] derives from the rectangles [inputs]: its bounds contain those of
    one of them. *)
Definition derived (inputs : list BaseGeometry) (x : BaseGeometry) : Prop :=
  ∃ y, y ∈ inputs ∧ covers (bounds x) (bounds y).

End Predicates.

(** ** Python list operations *)

(** [l.remove(x)]: drops the first element equal to [x]; no result
    ([ValueError]) when there is none. *)
Fixpoint list_remove `{EqDecision A} (x : A) (l : list A) : option (list A) :=
  match l with
  | [] => None
  | y :: l => if decide (y = x) then Some l else (y ::.) <$> list_remove x l
  end.

(** ** Rectangle Merger, by value *)

(** Truth value of [horizontal_distance] in
    [horizontal_distance and _is_horizontal_near(...)]: [None] and [0] are
    false. *)
Definition truthy (horizontal_distance : option Qc) : bool :=
  match horizontal_distance with
  | Some h => bool_decide (h ≠ 0)
  | None => false
  end.

Section Merger.
Context `{Shapely}.
Variable distance : Qc.
Variable horizontal_distance : option Qc.

(** The test of line 68-69. *)
Definition merge_test (rect other_rect : BaseGeometry) : bool :=
  _is_near rect other_rect distance
  || match horizontal_distance with
     | Some h => truthy horizontal_distance && _is_horizontal_near rect other_rect h
     | None => false
     end.

(** [for other_rect in rect_list: ...] (lines 67-72).  A Python list
    iterator is an index [it] into the live list: [rect_list.remove] shifts
    the tail to the left under it, so the element that follows a removed one
    is skipped in this pass.  [list_remove] drops the first element equal to
    [other_rect], as [list.remove] does, and has no result when there is
    none ([ValueError]). *)
Fixpoint for_other_rect (fuel it : nat) (rect : BaseGeometry)
    (rect_list : list BaseGeometry) (merged : bool)
  : option (BaseGeometry * list BaseGeometry * bool) :=
  match fuel with
  | O => None
  | S fuel =>
    match rect_list !! it with
    | None => Some (rect, rect_list, merged)
    | Some other_rect =>
      if merge_test rect other_rect then
        rect_list ← list_remove other_rect rect_list;
        for_other_rect fuel (S it) (_union_rects rect other_rect) rect_list true
      else for_other_rect fuel (S it) rect rect_list merged
    end
  end.

(** [while rect_list: rect = rect_list.pop(0); ...;
    new_rect_list.append(rect)] (lines 65-73). *)
Fixpoint while_rect_list (fuel : nat) (rect_list new_rect_list : list BaseGeometry)
    (merged : bool) : option (list BaseGeometry * bool) :=
  match fuel with
  | O => None
  | S fuel =>
    match rect_list with
    | [] => Some (new_rect_list, merged)
    | rect :: rect_list =>
      '(rect, rect_list, merged) ← for_other_rect fuel 0 rect rect_list merged;
      while_rect_list fuel rect_list (new_rect_list ++ [rect]) merged
    end
  end.

(** One pass of the outer loop (lines 63-74): the next work-list and whether
    anything was merged. *)
Definition merge_pass (fuel : nat) (rect_list : list BaseGeometry)
  : option (list BaseGeometry * bool) :=
  while_rect_list fuel rect_list [] false.

(** [while merged: ...] (lines 61-75); [merged] starts as [True], so the
    first pass always runs. *)
Fixpoint while_merged (fuel : nat) (rect_list : list BaseGeometry)
  : option (list BaseGeometry) :=
  match fuel with
  | O => None
  | S fuel =>
    '(new_rect_list, merged) ← merge_pass fuel rect_list;
    if merged : bool then while_merged fuel new_rect_list else Some new_rect_list
  end.

(** No rectangle of [l] passes the merge test with a later one. *)
Definition settled (l : list BaseGeometry) : Prop :=
  ∀ i j a b, (i < j)%nat → l !! i = Some a → l !! j = Some b → merge_test a b = false.

(** [merging_passes n l out]: from the work-list [l], [n] passes in a row
    merge something, and the pass after them merges nothing and returns
    [out]. *)
Inductive merging_passes : nat → list BaseGeometry → list BaseGeometry → Prop :=
  | quiet_pass fuel l out :
      merge_pass fuel l = Some (out, false) → merging_passes 0 l out
  | merging_pass fuel l new n out :
      merge_pass fuel l = Some (new, true) → merging_passes n new out →
      merging_passes (S n) l out.

End Merger.

(** [_merge_rects(rect_list, distance, horizontal_distance)].  The fuel
    [length rect_list + 2] is enough for every loop (see
    [merge_rects_fuel]). *)
Definition _merge_rects `{Shapely} (rect_list : list BaseGeometry) (distance : Qc)
    (horizontal_distance : option Qc) : option (list BaseGeometry) :=
  while_merged distance horizontal_distance (length rect_list + 2) rect_list.

(** ** Adsorption Pass, by value *)

Section Adsorption.
Context `{Shapely}.
Variable distance : Qc.

(** [for index, rect in enumerate(target_rects): ...; break] (lines 86-91):
    [rest] is what is left to enumerate, starting at [index]; the pair is the
    target list and the flag [adsorbed]. *)
Fixpoint for_index_rect (text_area_rect : BaseGeometry) (index : nat)
    (rest target_rects : list BaseGeometry) : list BaseGeometry * bool :=
  match rest with
  | [] => (target_rects, false)
  | rect :: rest =>
    if _is_near text_area_rect rect distance then
      let rect := _union_rects text_area_rect rect in
      (<[index := rect]> target_rects, true)
    else for_index_rect text_area_rect (S index) rest target_rects
  end.

(** [for text_area_rect in source_rects: ...] (lines 84-93). *)
Fixpoint for_text_area_rect (source_rects new_source_rects target_rects : list BaseGeometry)
  : list BaseGeometry * list BaseGeometry :=
  match source_rects with
  | [] => (new_source_rects, target_rects)
  | text_area_rect :: source_rects =>
    let '(target_rects, adsorbed) :=
      for_index_rect text_area_rect 0 target_rects target_rects in
    for_text_area_rect source_rects
      (if adsorbed : bool then new_source_rects else new_source_rects ++ [text_area_rect])
      target_rects
  end.

(** What became of a source: [None], it is left over; [Some j], it was
    unioned into the target at index [j]. *)
Definition fate : Type := option nat.

(** The sources with the fate [f], in the order of the source list. *)
Definition fated (f : fate) (sources : list BaseGeometry) (fates : list fate)
  : list BaseGeometry :=
  (filter (λ sf, sf.2 = f) (zip sources fates)).*1.

(** [adsorption sources targets fates targets']: taking the sources one by
    one against the current targets, each source is unioned into the first
    target near it, which it replaces, or is left over when no target is
    near it; [targets'] are the targets in the end. *)
Inductive adsorption
  : list BaseGeometry → list BaseGeometry → list fate → list BaseGeometry → Prop :=
  | adsorption_done targets : adsorption [] targets [] targets
  | adsorption_into s sources targets j t fates targets' :
      targets !! j = Some t →
      _is_near s t distance = true →
      (∀ i t', (i < j)%nat → targets !! i = Some t' → _is_near s t' distance = false) →
      adsorption sources (<[j := _union_rects s t]> targets) fates targets' →
      adsorption (s :: sources) targets (Some j :: fates) targets'
  | adsorption_left s sources targets fates targets' :
      (∀ t, t ∈ targets → _is_near s t distance = false) →
      adsorption sources targets fates targets' →
      adsorption (s :: sources) targets (None :: fates) targets'.

End Adsorption.

(** [_adsorb_rects_to_rects(source_rects, target_rects, distance)], for two
    distinct list objects: [(new_source_rects, target_rects)]. *)
Definition _adsorb_rects_to_rects `{Shapely} (source_rects target_rects : list BaseGeometry)
    (distance : Qc) : list BaseGeometry * list BaseGeometry :=
  for_text_area_rect distance source_rects [] target_rects.

(** ** Page Segmenter *)

(** What [_parse_rects] reads of a [fitz.Page].  A text is a sequence of
    characters; the segmenter looks at its length and at its newlines
    only. *)
Record TextBlock : Type := Block {
  block_bbox : Bounds;      (* x[:4] *)
  block_text : string;      (* x[4] *)
}.

Record Page : Type := {
  get_drawings : list Bounds;       (* drawing['rect'] of page.get_drawings() *)
  get_image_info : list Bounds;     (* image['bbox'] of page.get_image_info() *)
  get_text_blocks : list TextBlock; (* page.get_text('blocks') *)
}.

(** The page without its text blocks. *)
Definition without_text (page : Page) : Page := {|
  get_drawings := get_drawings page;
  get_image_info := get_image_info page;
  get_text_blocks := [];
|}.

Definition LF : ascii := ascii_of_nat 10.

(** [s.split('\n')]: the segments between the newline characters, one more
    than there are newlines. *)
Fixpoint split_lines (s : string) : list string :=
  match s with
  | EmptyString => [EmptyString]
  | String c s =>
    if decide (c = LF) then EmptyString :: split_lines s
    else match split_lines s with
         | line :: lines => String c line :: lines
         | [] => [String c EmptyString]
         end
  end.

(** The number of newline characters of a text. *)
Fixpoint newlines (s : string) : nat :=
  match s with
  | EmptyString => 0
  | String c s => if decide (c = LF) then S (newlines s) else newlines s
  end.

(** [a / b] on two lengths, [b] at least 1. *)
Definition true_div (a b : nat) : Qc := Q2Qc (Z.of_nat a # Pos.of_nat b).

(** Line 106. *)
Definition is_short_line (x : Bounds) : bool :=
  bool_decide (Qcabs (y1 x - y0 x) < fl 1) && bool_decide (Qcabs (x1 x - x0 x) < fl 30).

(** Line 123. *)
Definition is_large_content (x : TextBlock) : bool :=
  bool_decide (fl 5 < true_div (String.length (block_text x))
                               (max 1 (length (split_lines (block_text x))))).

(** The classification as the specification words it: the average length
    of the lines of the block, the mean of the lengths of the segments of
    [split_lines], exceeds 5. *)
Definition average_line_length (text : string) : Qc :=
  true_div (sum_list (String.length <$> split_lines text)) (length (split_lines text)).

Definition spec_is_large_content (x : TextBlock) : bool :=
  bool_decide (fl 5 < average_line_length (block_text x)).

(** Line 133. *)
Definition big_enough (b : Bounds) : bool :=
  bool_decide (fl 20 < x1 b - x0 b) && bool_decide (fl 20 < y1 b - y0 b).

Section Segmenter.
Context `{Shapely}.

(** Lines 103-117: the pool of drawing and image rectangles. *)
Definition pool (page : Page) : list BaseGeometry :=
  let drawings := get_drawings page in
  let drawings := filter (λ drawing, ¬ is_short_line drawing) drawings in
  let rect_list := box_of <$> drawings in
  let images := get_image_info page in
  let image_rects := box_of <$> images in
  rect_list ++ image_rects.

Definition small_text_area_rects (page : Page) : list BaseGeometry :=
  (λ x, box_of (block_bbox x)) <$> filter (λ x, ¬ is_large_content x) (get_text_blocks page).

Definition large_text_area_rects (page : Page) : list BaseGeometry :=
  (λ x, box_of (block_bbox x)) <$> filter (λ x, is_large_content x) (get_text_blocks page).

Definition _parse_rects (page : Page) : option (list Bounds) :=
  let rect_list := pool page in
  merged_rects ← _merge_rects rect_list (fl 10) (Some (fl 100));
  let merged_rects :=
    filter (λ rect, explain_validity rect = "Valid Geometry") merged_rects in
  let '(_, merged_rects) :=
    _adsorb_rects_to_rects (large_text_area_rects page) merged_rects (fl 0.1) in
  let '(_, merged_rects) :=
    _adsorb_rects_to_rects (small_text_area_rects page) merged_rects (fl 5) in
  merged_rects ← _merge_rects merged_rects (fl 10) None;
  let merged_rects := filter (λ rect, big_enough (bounds rect)) merged_rects in
  Some (bounds <$> merged_rects).

(** The targets after lines 120-127, from the merged rectangles of line
    119: the valid ones, after the two adsorption calls. *)
Definition adsorbed_targets (page : Page) (merged_rects : list BaseGeometry)
  : list BaseGeometry :=
  (_adsorb_rects_to_rects (small_text_area_rects page)
     (_adsorb_rects_to_rects (large_text_area_rects page)
        (filter (λ rect, explain_validity rect = "Valid Geometry") merged_rects)
        (fl 0.1)).2
     (fl 5)).2.

End Segmenter.

(** ** Lists as objects

    The store holds the list objects; a list variable of the source is a
    location.  The loops below are the loops above, statement by statement,
    on the store. *)

Abbreviation loc := nat.
Abbreviation heap := (list (list BaseGeometry)).

Section Store.
Context `{Shapely}.

(** [[]] *)
Definition list_new (h : heap) : loc * heap := (length h, h ++ [[]]).

(** The truth value of a list. *)
Definition list_bool (p : loc) (h : heap) : option bool :=
  l ← h !! p; Some (bool_decide (l ≠ [])).

(** [p.pop(0)] *)
Definition list_pop0 (p : loc) (h : heap) : option (BaseGeometry * heap) :=
  l ← h !! p;
  match l with
  | [] => None
  | x :: l => Some (x, <[p := l]> h)
  end.

(** The next element of an iterator that stands at index [it] of [p]. *)
Definition list_next (p : loc) (it : nat) (h : heap) : option (option BaseGeometry) :=
  l ← h !! p; Some (l !! it).

(** [p.remove(x)] *)
Definition list_remove_obj (p : loc) (x : BaseGeometry) (h : heap) : option heap :=
  l ← h !! p; l ← list_remove x l; Some (<[p := l]> h).

(** [p.append(x)] *)
Definition list_append (p : loc) (x : BaseGeometry) (h : heap) : option heap :=
  l ← h !! p; Some (<[p := l ++ [x]]> h).

(** [p[i] = x] *)
Definition list_setitem (p : loc) (i : nat) (x : BaseGeometry) (h : heap) : option heap :=
  l ← h !! p;
  if decide (i < length l)%nat then Some (<[p := <[i := x]> l]> h) else None.

Section MergerObj.
Variable distance : Qc.
Variable horizontal_distance : option Qc.

Fixpoint for_other_rect_obj (fuel it : nat) (rect : BaseGeometry) (rect_list : loc)
    (merged : bool) (h : heap) : option (BaseGeometry * bool * heap) :=
  match fuel with
  | O => None
  | S fuel =>
    next ← list_next rect_list it h;
    match next with
    | None => Some (rect, merged, h)
    | Some other_rect =>
      if merge_test distance horizontal_distance rect other_rect then
        h ← list_remove_obj rect_list other_rect h;
        for_other_rect_obj fuel (S it) (_union_rects rect other_rect) rect_list true h
      else for_other_rect_obj fuel (S it) rect rect_list merged h
    end
  end.

Fixpoint while_rect_list_obj (fuel : nat) (rect_list new_rect_list : loc)
    (merged : bool) (h : heap) : option (bool * heap) :=
  match fuel with
  | O => None
  | S fuel =>
    more ← list_bool rect_list h;
    if more : bool then
      '(rect, h) ← list_pop0 rect_list h;
      '(rect, merged, h) ← for_other_rect_obj fuel 0 rect rect_list merged h;
      h ← list_append new_rect_list rect h;
      while_rect_list_obj fuel rect_list new_rect_list merged h
    else Some (merged, h)
  end.

Fixpoint while_merged_obj (fuel : nat) (rect_list : loc) (h : heap)
  : option (loc * heap) :=
  match fuel with
  | O => None
  | S fuel =>
    let '(new_rect_list, h) := list_new h in
    '(merged, h) ← while_rect_list_obj fuel rect_list new_rect_list false h;
    let rect_list := new_rect_list in
    if merged : bool then while_merged_obj fuel rect_list h else Some (rect_list, h)
  end.

End MergerObj.

(** [_merge_rects] on list objects: the location it returns and the store
    it leaves. *)
Definition _merge_rects_obj (rect_list : loc) (distance : Qc)
    (horizontal_distance : option Qc) (h : heap) : option (loc * heap) :=
  l ← h !! rect_list;
  while_merged_obj distance horizontal_distance (length l + 2) rect_list h.

Section AdsorptionObj.
Variable distance : Qc.

Fixpoint for_index_rect_obj (fuel : nat) (text_area_rect : BaseGeometry) (index : nat)
    (target_rects : loc) (h : heap) : option (bool * heap) :=
  match fuel with
  | O => None
  | S fuel =>
    next ← list_next target_rects index h;
    match next with
    | None => Some (false, h)
    | Some rect =>
      if _is_near text_area_rect rect distance then
        let rect := _union_rects text_area_rect rect in
        h ← list_setitem target_rects index rect h;
        Some (true, h)
      else for_index_rect_obj fuel text_area_rect (S index) target_rects h
    end
  end.

Fixpoint for_text_area_rect_obj (fuel it : nat) (source_rects new_source_rects
    target_rects : loc) (h : heap) : option heap :=
  match fuel with
  | O => None
  | S fuel =>
    next ← list_next source_rects it h;
    match next with
    | None => Some h
    | Some text_area_rect =>
      '(adsorbed, h) ← for_index_rect_obj fuel text_area_rect 0 target_rects h;
      h ← (if adsorbed : bool then Some h
           else list_append new_source_rects text_area_rect h);
      for_text_area_rect_obj fuel (S it) source_rects new_source_rects target_rects h
    end
  end.

End AdsorptionObj.

(** [_adsorb_rects_to_rects] on list objects: the two locations it returns
    and the store it leaves. *)
Definition _adsorb_rects_to_rects_obj (source_rects target_rects : loc) (distance : Qc)
    (h : heap) : option (loc * loc * heap) :=
  sources ← h !! source_rects;
  targets ← h !! target_rects;
  let '(new_source_rects, h) := list_new h in
  h ← for_text_area_rect_obj distance (length sources + length targets + 2) 0
        source_rects new_source_rects target_rects h;
  Some (new_source_rects, target_rects, h).

End Store.

(** ** Cropping and annotating the pages: [_parse_pdf_to_images]

    The document is the list of its pages.  The files written are a map
    from paths to pixmaps; a pixmap is what [page.get_pixmap] renders: the
    page, what has been drawn on it so far, the clip and the zoom. *)

(** [os.path.join(a, b)], as [posixpath] has it. *)
Definition starts_with_sep (s : string) : bool :=
  match s with
  | String c _ => bool_decide (c = "/"%char)
  | EmptyString => false
  end.

Fixpoint ends_with_sep (s : string) : bool :=
  match s with
  | EmptyString => false
  | String c EmptyString => bool_decide (c = "/"%char)
  | String _ s => ends_with_sep s
  end.

Definition path_join (a b : string) : string :=
  if starts_with_sep b then b
  else if bool_decide (a = EmptyString) || ends_with_sep a then a +:+ b
  else a +:+ "/" +:+ b.

(** [f'{page_index}_{index}.png'] and [f'{page_index}.png']. *)
Definition rect_image_name (page_index index : nat) : string :=
  pretty page_index +:+ "_" +:+ pretty index +:+ ".png".

Definition page_image_name (page_index : nat) : string :=
  pretty page_index +:+ ".png".

(** What is drawn on a page: [page.draw_rect(rect, color=, fill=, width=)]
    and [page.insert_text(point, text, fontsize=, color=)]. *)
Inductive Drawn : Type :=
  | draw_rect (rect : Bounds) (color : nat * nat * nat)
      (fill : option (nat * nat * nat)) (width : option nat)
  | insert_text (point : Qc * Qc) (text : string) (fontsize : nat)
      (color : nat * nat * nat).

(** [page.get_pixmap(clip=, matrix=fitz.Matrix(z, z))] *)
Record Pixmap : Type := get_pixmap {
  pix_page : Page;
  pix_drawn : list Drawn;
  pix_clip : option Bounds;
  pix_matrix : nat * nat;
}.

(** Lines 158-166: the outline around a region and the box of its label. *)
Definition big_fitz_rect (fitz_rect : Bounds) : Bounds :=
  Tuple4 (x0 fitz_rect - fl 1) (y0 fitz_rect - fl 1) (x1 fitz_rect + fl 1)
         (y1 fitz_rect + fl 1).

Definition text_rect (fitz_rect : Bounds) : Bounds :=
  let text_x := x0 fitz_rect + fl 2 in
  let text_y := y0 fitz_rect + fl 10 in
  Tuple4 text_x (text_y - fl 9) (text_x + fl 80) (text_y + fl 2).

(** [for index, rect in enumerate(rects): ...] (lines 150-170): what is
    drawn on the page, the names collected and the files. *)
Fixpoint for_index_rect_image (page : Page) (output_dir : string) (page_index index : nat)
    (rects : list Bounds) (drawn : list Drawn) (rect_images : list string)
    (files : gmap string Pixmap) : list Drawn * list string * gmap string Pixmap :=
  match rects with
  | [] => (drawn, rect_images, files)
  | rect :: rects =>
    let fitz_rect := rect in
    let pix := get_pixmap page drawn (Some fitz_rect) (4, 4)%nat in
    let name := rect_image_name page_index index in
    let files := <[path_join output_dir name := pix]> files in
    let rect_images := rect_images ++ [name] in
    let drawn := drawn ++ [draw_rect (big_fitz_rect fitz_rect) (1, 0, 0)%nat None (Some 1%nat)] in
    let text_x := x0 fitz_rect + fl 2 in
    let text_y := y0 fitz_rect + fl 10 in
    let drawn :=
      drawn ++ [draw_rect (text_rect fitz_rect) (1, 1, 1)%nat (Some (1, 1, 1)%nat) None] in
    let drawn := drawn ++ [insert_text (text_x, text_y) name 10 (1, 0, 0)%nat] in
    for_index_rect_image page output_dir page_index (S index) rects drawn rect_images files
  end.

(** What the loop above draws for the regions [rects], numbered from
    [index]. *)
Fixpoint annotations (page_index index : nat) (rects : list Bounds) : list Drawn :=
  match rects with
  | [] => []
  | rect :: rects =>
    [draw_rect (big_fitz_rect rect) (1, 0, 0)%nat None (Some 1%nat);
     draw_rect (text_rect rect) (1, 1, 1)%nat (Some (1, 1, 1)%nat) None;
     insert_text (x0 rect + fl 2, y0 rect + fl 10) (rect_image_name page_index index) 10
       (1, 0, 0)%nat]
    ++ annotations page_index (S index) rects
  end.

Section Cropping.
Context `{Shapely}.

(** [for page_index, page in enumerate(pdf_document): ...] (lines
    146-174). *)
Fixpoint for_page_index_page (output_dir : string) (page_index : nat) (pages : list Page)
    (image_infos : list (string * list string)) (files : gmap string Pixmap)
  : option (list (string * list string) * gmap string Pixmap) :=
  match pages with
  | [] => Some (image_infos, files)
  | page :: pages =>
    let rect_images := [] in
    rects ← _parse_rects page;
    let '(drawn, rect_images, files) :=
      for_index_rect_image page output_dir page_index 0 rects [] rect_images files in
    let page_image_with_rects := get_pixmap page drawn None (3, 3)%nat in
    let page_image := path_join output_dir (page_image_name page_index) in
    let files := <[page_image := page_image_with_rects]> files in
    for_page_index_page output_dir (S page_index) pages
      (image_infos ++ [(page_image, rect_images)]) files
  end.

(** [_parse_pdf_to_images(pdf_path, output_dir)], with the document that
    [fitz.open(pdf_path)] gives and the files there are: the list it
    returns and the files there are in the end. *)
Definition _parse_pdf_to_images (pdf_document : list Page) (output_dir : string)
    (files : gmap string Pixmap)
  : option (list (string * list string) * gmap string Pixmap) :=
  let image_infos := [] in
  for_page_index_page output_dir 0 pdf_document image_infos files.

End Cropping.

(** ** The command line: [main] of [gptpdf.py]

    The environment and the [.env] file are maps from names to values, the
    files that can be opened a map from paths to their text.  [yaml] is a
    parameter: [safe_load] has no result where [yaml.safe_load] raises.
    [main] ends in an exception or in the call of [parse_pdf]; what it
    printed goes with the call. *)

Module Cli.

(** What the user wrote on the command line. *)
Record CommandLine : Type := {
  cl_pdf_path : string;
  cl_output_dir : string;
  cl_prompt_file : option string;
  cl_api_key : option string;
  cl_api_key_env : option string;
  cl_model : option string;
  cl_verbose : bool;
  cl_base_url : option string;
  cl_temperature : option Qc;
  cl_max_tokens : option Z;
}.

(** [args], the namespace of [parser.parse_args()]. *)
Record Namespace : Type := {
  pdf_path : string;
  output_dir : string;
  prompt_file : option string;
  api_key : option string;
  api_key_env : string;
  model : string;
  verbose : bool;
  base_url : string;
  temperature : option Qc;
  max_tokens : option Z;
}.

(** Lines 12-23: the arguments and their defaults. *)
Definition parse_args (cl : CommandLine) : Namespace := {|
  pdf_path := cl_pdf_path cl;
  output_dir := cl_output_dir cl;
  prompt_file := cl_prompt_file cl;
  api_key := cl_api_key cl;
  api_key_env := default "OPENAI_API_KEY"%string (cl_api_key_env cl);
  model := default "gpt-4"%string (cl_model cl);
  verbose := cl_verbose cl;
  base_url := default "https://openrouter.ai/api/v1"%string (cl_base_url cl);
  temperature := cl_temperature cl;
  max_tokens := cl_max_tokens cl;
|}.

(** [load_dotenv(override=False)]: a name of the [.env] file is set where
    the environment has none. *)
Definition load_dotenv (environ dotenv : gmap string string) : gmap string string :=
  environ ∪ dotenv.

(** The truth value of a string that may be [None]. *)
Definition truthy_str (s : option string) : bool :=
  match s with
  | Some s => bool_decide (s ≠ EmptyString)
  | None => false
  end.

(** Line 29: [args.api_key or os.environ.get(args.api_key_env)]. *)
Definition resolve_api_key (args : Namespace) (environ : gmap string string)
  : option string :=
  if truthy_str (api_key args) then api_key args else environ !! api_key_env args.

(** A value of [extra_args]. *)
Inductive Value : Type :=
  | float (x : Qc)
  | int (n : Z).

Definition NL : string := String LF EmptyString.

Section Main.
Variable Yaml : Type.
Variable safe_load : string → option Yaml.

(** The keyword arguments of the call of [parse_pdf] (lines 56-65). *)
Record Kwargs : Type := {
  kw_pdf_path : string;
  kw_output_dir : string;
  kw_prompt : option Yaml;
  kw_api_key : string;
  kw_model : string;
  kw_verbose : bool;
  kw_base_url : string;
  kw_extra_args : gmap string Value;
}.

Inductive Outcome : Type :=
  | raise_ValueError (message : string)
  | raise_FileNotFoundError (path : string)
  | raise_YAMLError (text : string)
  | call_parse_pdf (stdout : string) (kwargs : Kwargs).

(** Lines 46-48. *)
Definition extra_args_of (args : Namespace) : gmap string Value :=
  let extra_args := ∅ in
  let extra_args :=
    match temperature args with
    | Some t => if bool_decide (t ≠ 0) then <["temperature"%string := float t]> extra_args
                else extra_args
    | None => extra_args
    end in
  match max_tokens args with
  | Some n => if bool_decide (n ≠ 0%Z) then <["max_tokens"%string := int n]> extra_args
              else extra_args
  | None => extra_args
  end.

(** Lines 56-65, from [extra_args] on. *)
Definition print_and_call (args : Namespace) (api_key : string) (prompt : option Yaml)
  : Outcome :=
  let extra_args := extra_args_of args in
  let stdout :=
    "..Model: " +:+ model args +:+ NL
    +:+ "..Provider URL: " +:+ base_url args +:+ NL
    +:+ "..API key symbol: " +:+ api_key_env args +:+ NL +:+ NL in
  call_parse_pdf stdout {|
    kw_pdf_path := pdf_path args;
    kw_output_dir := output_dir args;
    kw_prompt := prompt;
    kw_api_key := api_key;
    kw_model := model args;
    kw_verbose := verbose args;
    kw_base_url := base_url args;
    kw_extra_args := extra_args;
  |}.

Definition main (cl : CommandLine) (environ dotenv files : gmap string string)
  : Outcome :=
  let environ := load_dotenv environ dotenv in
  let args := parse_args cl in
  match resolve_api_key args environ with
  | None =>
    raise_ValueError
      ("API key not provided. Please either:"
       +:+ NL +:+ "1. Use the --api-key argument"
       +:+ NL +:+ "2. Set the " +:+ api_key_env args +:+ " environment variable"
       +:+ NL +:+ "3. Set " +:+ api_key_env args +:+ " in your .env file")
  | Some api_key =>
    match prompt_file args with
    | Some path =>
      if truthy_str (prompt_file args) then
        match files !! path with
        | None => raise_FileNotFoundError path
        | Some text =>
          match safe_load text with
          | None => raise_YAMLError text
          | Some prompt => print_and_call args api_key (Some prompt)
          end
        end
      else print_and_call args api_key None
    | None => print_and_call args api_key None
    end
  end.

End Main.

End Cli.

(** ** An implementation of the interface: exact geometry of boxes

    A geometry is a box, a buffer of a geometry or a union of two: every
    geometry the engine builds.  Its point set is a finite union of rounded
    boxes (a box grown by a radius), and the distance between two rounded
    boxes is the distance between the boxes less the two radii, which is
    compared with [d] on the squares.  The polygonal approximation shapely
    makes of a round corner is not modelled, nor is a negative buffer. *)

Module Ideal.

Inductive shape : Type :=
  | Box (a b c d : Qc)
  | Buffer (g : shape) (r : Qc)
  | Union (g h : shape).

#[global] Instance shape_eq_dec : EqDecision shape.
Proof. solve_decision. Defined.

Definition grow (b : Bounds) (r : Qc) : Bounds :=
  Tuple4 (x0 b - r) (y0 b - r) (x1 b + r) (y1 b + r).

Fixpoint shape_bounds (g : shape) : Bounds :=
  match g with
  | Box a b c d => Tuple4 (Qc_min a c) (Qc_min b d) (Qc_max a c) (Qc_max b d)
  | Buffer g r => grow (shape_bounds g) (Qc_max 0 r)
  | Union g h => hull (shape_bounds g) (shape_bounds h)
  end.

(** The rounded boxes of a geometry: a box and a radius each. *)
Fixpoint parts (g : shape) : list (Bounds * Qc) :=
  match g with
  | Box a b c d => [(shape_bounds g, 0)]
  | Buffer g r => (λ p, (p.1, p.2 + Qc_max 0 r)) <$> parts g
  | Union g h => parts g ++ parts h
  end.

(** Distance of the intervals [[lo1, hi1]] and [[lo2, hi2]]. *)
Definition gap (lo1 hi1 lo2 hi2 : Qc) : Qc :=
  Qc_max 0 (Qc_max (lo2 - hi1) (lo1 - hi2)).

Definition part_distance_lt (p q : Bounds * Qc) (d : Qc) : bool :=
  let dx := gap (x0 p.1) (x1 p.1) (x0 q.1) (x1 q.1) in
  let dy := gap (y0 p.1) (y1 p.1) (y0 q.1) (y1 q.1) in
  bool_decide (0 < d)
  && bool_decide (dx * dx + dy * dy < (d + (p.2 + q.2)) * (d + (p.2 + q.2))).

Definition shape_distance_lt (g h : shape) (d : Qc) : bool :=
  existsb (λ p, existsb (λ q, part_distance_lt p q d) (parts h)) (parts g).

Definition shape_validity (g : shape) : string :=
  match g with
  | Box a b c d =>
    if decide (a = c ∨ b = d) then "Too few points in geometry component"
    else "Valid Geometry"
  | _ => "Valid Geometry"
  end.

End Ideal.

(** ** The scenarios of the specification *)

Module Scenario.
Import Ideal.

(** Scenarios A and B: two drawings with a gap of 5 between them. *)
Definition left_drawing : shape := Box (fl 0) (fl 0) (fl 50) (fl 50).
Definition right_drawing : shape := Box (fl 55) (fl 0) (fl 100) (fl 50).
Definition both_drawings : shape := Box (fl 0) (fl 0) (fl 100) (fl 50).

(** Scenario C: a horizontal line above a text block of the same width. *)
Definition rule : shape := Box (fl 10) (fl 100) (fl 90) (fl 100.05).
Definition text_block : shape := Box (fl 10) (fl 105) (fl 90) (fl 140).
Definition rule_and_text : shape := Box (fl 10) (fl 100) (fl 90) (fl 140).

(** Scenario D: a small rectangle. *)
Definition lone : Bounds := Tuple4 (fl 5) (fl 5) (fl 15) (fl 15).

(** Two lines of five characters. *)
Definition two_lines_of_five : TextBlock :=
  Block lone ("abcde" +:+ String LF "abcde").

(** A page with one large drawing and one line of text far from it. *)
Definition figure_page : Page := {|
  get_drawings := [Tuple4 (fl 0) (fl 0) (fl 100) (fl 100)];
  get_image_info := [];
  get_text_blocks := [Block (Tuple4 (fl 200) (fl 200) (fl 300) (fl 210)) "caption"];
|}.

(** A page with text only. *)
Definition text_page : Page := {|
  get_drawings := [];
  get_image_info := [];
  get_text_blocks := [Block (Tuple4 (fl 0) (fl 0) (fl 100) (fl 100)) "some text"];
|}.

End Scenario.

(** ** More scenarios *)

Module Gallery.

(** A page with two figures, 100 apart. *)
Definition left_figure : Bounds := Tuple4 (fl 0) (fl 0) (fl 100) (fl 100).
Definition right_figure : Bounds := Tuple4 (fl 200) (fl 0) (fl 300) (fl 100).

Definition two_figures : Page := {|
  get_drawings := [left_figure; right_figure];
  get_image_info := [];
  get_text_blocks := [];
|}.

(** A short line: 20 wide, half a unit high. *)
Definition dash : Bounds := Tuple4 (fl 0) (fl 0) (fl 20) (fl 0.5).

(** A command line with a key and a temperature of 0; one without a key. *)
Definition with_key : Cli.CommandLine := {|
  Cli.cl_pdf_path := "paper.pdf";
  Cli.cl_output_dir := "out";
  Cli.cl_prompt_file := None;
  Cli.cl_api_key := Some "secret"%string;
  Cli.cl_api_key_env := None;
  Cli.cl_model := None;
  Cli.cl_verbose := false;
  Cli.cl_base_url := None;
  Cli.cl_temperature := Some (fl 0);
  Cli.cl_max_tokens := Some 100%Z;
|}.

Definition without_key : Cli.CommandLine := {|
  Cli.cl_pdf_path := "paper.pdf";
  Cli.cl_output_dir := "out";
  Cli.cl_prompt_file := Some "missing.yaml"%string;
  Cli.cl_api_key := Some EmptyString;
  Cli.cl_api_key_env := None;
  Cli.cl_model := None;
  Cli.cl_verbose := false;
  Cli.cl_base_url := None;
  Cli.cl_temperature := None;
  Cli.cl_max_tokens := None;
|}.

End Gallery.

(** * Properties *)

(** ** The exact geometry implements the interface *)

Module IdealLaws.
Import Ideal.

Lemma shape_bounds_ordered g : ordered (shape_bounds g).
Proof.
  induction g as [a b c d|g IH r|g IHg h IHh]; simpl.
  - split; simpl; qc_order.
  - destruct IH as [Hx Hy]. unfold grow. split; simpl.
    + qc_order.
    + qc_order.
  - destruct IHg, IHh. split; simpl; qc_order.
Qed.

Lemma gap_sym lo1 hi1 lo2 hi2 : gap lo1 hi1 lo2 hi2 = gap lo2 hi2 lo1 hi1.
Proof. unfold gap. qc_order. Qed.

Lemma part_distance_lt_sym p q d : part_distance_lt p q d = part_distance_lt q p d.
Proof.
  unfold part_distance_lt.
  rewrite (gap_sym (x0 p.1)), (gap_sym (y0 p.1)), (Qcplus_comm p.2). reflexivity.
Qed.

Lemma shape_distance_lt_true g h d :
  shape_distance_lt g h d = true
  ↔ ∃ p q, In p (parts g) ∧ In q (parts h) ∧ part_distance_lt p q d = true.
Proof.
  unfold shape_distance_lt. rewrite existsb_exists. split.
  - intros (p & Hp & Hq). apply existsb_exists in Hq as (q & Hq & Hpq). eauto.
  - intros (p & q & Hp & Hq & Hpq). exists p. split; [done|].
    apply existsb_exists. eauto.
Qed.

Lemma shape_distance_lt_sym g h d : shape_distance_lt g h d = shape_distance_lt h g d.
Proof.
  apply eq_true_iff_eq. rewrite !shape_distance_lt_true.
  split; intros (p & q & Hp & Hq & Hpq); exists q, p;
    rewrite part_distance_lt_sym; auto.
Qed.

End IdealLaws.

(** The instance. *)
Definition ideal : Shapely := {|
  BaseGeometry := Ideal.shape;
  box := Ideal.Box;
  bounds := Ideal.shape_bounds;
  buffer := Ideal.Buffer;
  distance_lt := Ideal.shape_distance_lt;
  union := Ideal.Union;
  explain_validity := Ideal.shape_validity;
  bounds_ordered := IdealLaws.shape_bounds_ordered;
  bounds_box := λ a b c d, eq_refl;
  bounds_union := λ g h, eq_refl;
  distance_lt_sym := IdealLaws.shape_distance_lt_sym;
|}.

(** ** Facts about the list operations *)

Section ListFacts.
Context `{EqDecision A}.
Implicit Types (x : A) (l : list A).

Lemma list_remove_lookup l i x :
  l !! i = Some x → ∃ l', list_remove x l = Some l' ∧ length l = S (length l').
Proof.
  revert i. induction l as [|y l IH]; intros i Hi; [done|]. simpl.
  destruct (decide (y = x)) as [->|Hne]; [by eauto|].
  destruct i as [|i]; simplify_eq/=.
  destruct (IH _ Hi) as (l' & -> & Hlen). simpl. eauto with lia.
Qed.

Lemma list_remove_length l l' x :
  list_remove x l = Some l' → length l = S (length l').
Proof.
  revert l'. induction l as [|y l IH]; intros l' Hl; [done|]. simpl in *.
  destruct (decide (y = x)); simplify_option_eq; [done|].
  simpl. f_equal. eauto.
Qed.

Lemma list_remove_elem_of l l' x y :
  list_remove x l = Some l' → y ∈ l' → y ∈ l.
Proof.
  revert l'. induction l as [|z l IH]; intros l' Hl Hy; [done|]. simpl in *.
  destruct (decide (z = x)); simplify_option_eq; [by right|].
  apply elem_of_cons in Hy as [->|Hy]; [by left|]. right. eauto.
Qed.

End ListFacts.

(** ** The geometry predicates *)

Section PredicateFacts.
Context `{Shapely}.
Implicit Types (a b : BaseGeometry) (d : Qc).

Lemma is_near_sym a b d : _is_near a b d = _is_near b a d.
Proof. apply distance_lt_sym. Qed.

Lemma is_horizontal_near_sym a b d :
  _is_horizontal_near a b d = _is_horizontal_near b a d.
Proof.
  unfold _is_horizontal_near.
  rewrite (Qcabs_Qcminus (x0 (bounds a)) (x0 (bounds b))),
    (Qcabs_Qcminus (x1 (bounds a)) (x1 (bounds b))),
    (Qcabs_Qcminus (y1 (bounds a)) (y1 (bounds b))), orb_comm.
  reflexivity.
Qed.

Lemma is_horizontal_near_0 a b : _is_horizontal_near a b 0 = false.
Proof.
  unfold _is_horizontal_near.
  rewrite (bool_decide_eq_false_2 (Qcabs _ < 0)); [by repeat case_match|].
  apply Qcle_not_lt, Qcabs_nonneg.
Qed.

End PredicateFacts.

(** ** Union *)

Section UnionFacts.
Context `{Shapely}.
Implicit Types (a b : BaseGeometry).

Lemma hull_ordered (p q : Bounds) : ordered p → ordered q → ordered (hull p q).
Proof. intros [] []. split; simpl; qc_order. Qed.

Lemma bounds_box_of (p : Bounds) : ordered p → bounds (box_of p) = p.
Proof.
  intros []. unfold box_of. rewrite bounds_box. destruct p as [a b c d]. simpl in *.
  f_equal; qc_order.
Qed.

Lemma bounds_union_rects a b :
  bounds (_union_rects a b) = hull (bounds a) (bounds b).
Proof.
  unfold _union_rects. rewrite bounds_union.
  apply bounds_box_of, hull_ordered; apply bounds_ordered.
Qed.

(** C3: [_union_rects a b] is the box whose corners are the componentwise
    minimum of the lower-left corners and the componentwise maximum of the
    upper-right corners of [a] and [b], and these are its bounds. *)
Theorem union_rects_min_max a b :
  _union_rects a b
  = box (Qc_min (x0 (bounds a)) (x0 (bounds b))) (Qc_min (y0 (bounds a)) (y0 (bounds b)))
        (Qc_max (x1 (bounds a)) (x1 (bounds b))) (Qc_max (y1 (bounds a)) (y1 (bounds b)))
  ∧ bounds (_union_rects a b)
    = Tuple4 (Qc_min (x0 (bounds a)) (x0 (bounds b)))
             (Qc_min (y0 (bounds a)) (y0 (bounds b)))
             (Qc_max (x1 (bounds a)) (x1 (bounds b)))
             (Qc_max (y1 (bounds a)) (y1 (bounds b))).
Proof.
  split; [|apply bounds_union_rects].
  unfold _union_rects. by rewrite bounds_union.
Qed.

Lemma covers_refl (p : Bounds) : covers p p.
Proof. unfold covers. split_and!; qc_order. Qed.

Lemma covers_trans (p q r : Bounds) : covers p q → covers q r → covers p r.
Proof. unfold covers. intros (?&?&?&?) (?&?&?&?). split_and!; qc_order. Qed.

Lemma hull_covers_l (p q : Bounds) : covers (hull p q) p.
Proof. unfold covers. split_and!; simpl; qc_order. Qed.

Lemma hull_covers_r (p q : Bounds) : covers (hull p q) q.
Proof. unfold covers. split_and!; simpl; qc_order. Qed.

Lemma union_rects_covers_l a b : covers (bounds (_union_rects a b)) (bounds a).
Proof. rewrite bounds_union_rects. apply hull_covers_l. Qed.

Lemma union_rects_covers_r a b : covers (bounds (_union_rects a b)) (bounds b).
Proof. rewrite bounds_union_rects. apply hull_covers_r. Qed.

Lemma derived_union inputs a b : derived inputs a → derived inputs (_union_rects a b).
Proof.
  intros (y & Hy & Hc). exists y. split; [done|].
  eapply covers_trans; [apply union_rects_covers_l|done].
Qed.

Lemma derived_union_r inputs a b : derived inputs b → derived inputs (_union_rects a b).
Proof.
  intros (y & Hy & Hc). exists y. split; [done|].
  eapply covers_trans; [apply union_rects_covers_r|done].
Qed.

Lemma derived_self (l : list BaseGeometry) : Forall (derived l) l.
Proof.
  apply Forall_forall. intros x Hx. exists x. split; [done|apply covers_refl].
Qed.

Lemma hull_least (p q r : Bounds) : covers r p → covers r q → covers r (hull p q).
Proof. unfold covers. intros (?&?&?&?) (?&?&?&?). split_and!; simpl; qc_order. Qed.

Lemma within_union (r : Bounds) a b :
  covers r (bounds a) → covers r (bounds b) → covers r (bounds (_union_rects a b)).
Proof. intros. rewrite bounds_union_rects. by apply hull_least. Qed.

End UnionFacts.

(** ** The Rectangle Merger *)

Section MergerFacts.
Context `{Shapely}.
Variable distance : Qc.
Variable horizontal_distance : option Qc.

Abbreviation test := (merge_test distance horizontal_distance).
Abbreviation for_loop := (for_other_rect distance horizontal_distance).
Abbreviation pop_loop := (while_rect_list distance horizontal_distance).
Abbreviation pass := (merge_pass distance horizontal_distance).
Abbreviation passes := (while_merged distance horizontal_distance).
Abbreviation settled := (settled distance horizontal_distance).

(** *** The [for] loop *)

Lemma for_loop_total fuel it rect l m :
  (length l - it < fuel)%nat → is_Some (for_loop fuel it rect l m).
Proof.
  revert it rect l m. induction fuel as [|fuel IH]; intros it rect l m Hf; [lia|].
  simpl. destruct (l !! it) as [other|] eqn:Hit; [|by eauto].
  apply lookup_lt_Some in Hit as Hlt.
  destruct (test rect other).
  - destruct (list_remove_lookup _ _ _ Hit) as (l' & -> & Hlen). simpl.
    apply IH. lia.
  - apply IH. lia.
Qed.

Lemma for_loop_fuel fuel fuel' it rect l m r :
  for_loop fuel it rect l m = Some r → (fuel ≤ fuel')%nat →
  for_loop fuel' it rect l m = Some r.
Proof.
  revert fuel' it rect l m. induction fuel as [|fuel IH]; intros fuel' it rect l m Hr Hf;
    [done|].
  destruct fuel' as [|fuel']; [lia|]. simpl in *.
  destruct (l !! it) as [other|]; [|done].
  destruct (test rect other).
  - destruct (list_remove other l) as [l'|]; [|done]. simpl in *. apply IH; [done|lia].
  - apply IH; [done|lia].
Qed.

(** The flag only goes up, and the list only gets shorter: strictly so when
    the flag goes up. *)
Lemma for_loop_shrinks fuel it rect l m rect' l' m' :
  for_loop fuel it rect l m = Some (rect', l', m') →
  (m = true → m' = true) ∧ (length l' ≤ length l)%nat
  ∧ (m = false → m' = true → length l' < length l)%nat.
Proof.
  revert it rect l m. induction fuel as [|fuel IH]; intros it rect l m Hr; [done|].
  simpl in Hr. destruct (l !! it) as [other|];
    [|simplify_eq; split_and!; intros; (lia || congruence)].
  destruct (test rect other).
  - destruct (list_remove other l) as [l1|] eqn:Hl1; [|done]. simpl in Hr.
    apply list_remove_length in Hl1. apply IH in Hr as (Hm & Hle & _).
    rewrite Hm by done. auto with lia.
  - by apply IH in Hr.
Qed.

(** A [for] loop that leaves the flag down has merged nothing: it has seen
    every element from [it] on, and none passed the test. *)
Lemma for_loop_quiet fuel it rect l rect' l' :
  for_loop fuel it rect l false = Some (rect', l', false) →
  rect' = rect ∧ l' = l
  ∧ ∀ j x, (it ≤ j)%nat → l !! j = Some x → test rect x = false.
Proof.
  revert it. induction fuel as [|fuel IH]; intros it Hr; [done|].
  simpl in Hr. destruct (l !! it) as [other|] eqn:Hit.
  - destruct (test rect other) eqn:Ht.
    + destruct (list_remove other l) as [l1|]; [|done]. simpl in Hr.
      apply for_loop_shrinks in Hr as (Hm & _). by specialize (Hm eq_refl).
    + apply IH in Hr as (-> & -> & Hall). do 2 (split; [done|]).
      intros j x Hj Hx. destruct (decide (j = it)) as [->|]; [congruence|].
      apply (Hall j); [lia|done].
  - simplify_eq. do 2 (split; [done|]). intros j x Hj Hx.
    apply lookup_ge_None_1 in Hit. apply lookup_lt_Some in Hx. lia.
Qed.

Lemma for_loop_nothing fuel it rect l m :
  (length l - it < fuel)%nat →
  (∀ j x, (it ≤ j)%nat → l !! j = Some x → test rect x = false) →
  for_loop fuel it rect l m = Some (rect, l, m).
Proof.
  revert it. induction fuel as [|fuel IH]; intros it Hf Hall; [lia|].
  simpl. destruct (l !! it) as [other|] eqn:Hit; [|done].
  apply lookup_lt_Some in Hit as Hlt.
  rewrite (Hall it other) by done. apply IH; [lia|].
  intros j x Hj. apply Hall. lia.
Qed.

(** *** The [while rect_list] loop *)

Lemma pop_loop_total fuel l new m :
  (length l < fuel)%nat → is_Some (pop_loop fuel l new m).
Proof.
  revert l new m. induction fuel as [|fuel IH]; intros l new m Hf; [lia|].
  simpl. destruct l as [|rect l]; [by eauto|]. simpl in Hf.
  destruct (for_loop_total fuel 0 rect l m) as [[[rect' l'] m'] Hfor]; [lia|].
  rewrite Hfor. simpl. apply for_loop_shrinks in Hfor as (_ & Hle & _).
  apply IH. lia.
Qed.

Lemma pop_loop_fuel fuel fuel' l new m r :
  pop_loop fuel l new m = Some r → (fuel ≤ fuel')%nat →
  pop_loop fuel' l new m = Some r.
Proof.
  revert fuel' l new m. induction fuel as [|fuel IH]; intros fuel' l new m Hr Hf; [done|].
  destruct fuel' as [|fuel']; [lia|]. simpl in *.
  destruct l as [|rect l]; [done|].
  destruct (for_loop fuel 0 rect l m) as [[[rect' l'] m']|] eqn:Hfor; [|done].
  rewrite (for_loop_fuel _ fuel' _ _ _ _ _ Hfor) by lia. simpl in *.
  apply IH; [done|lia].
Qed.

Lemma pop_loop_shrinks fuel l new m new' m' :
  pop_loop fuel l new m = Some (new', m') →
  (m = true → m' = true) ∧ (length new' ≤ length new + length l)%nat
  ∧ (m = false → m' = true → length new' < length new + length l)%nat.
Proof.
  revert l new m. induction fuel as [|fuel IH]; intros l new m Hr; [done|].
  simpl in Hr. destruct l as [|rect l];
    [simplify_eq/=; split_and!; intros; (lia || congruence)|].
  destruct (for_loop fuel 0 rect l m) as [[[rect1 l1] m1]|] eqn:Hfor; [|done].
  simpl in Hr. apply for_loop_shrinks in Hfor as (Hm1 & Hle1 & Hlt1).
  apply IH in Hr as (Hm & Hle & Hlt). rewrite length_app in *. simpl in *.
  split; [auto|]. split; [lia|]. intros -> ->.
  destruct m1; [specialize (Hlt1 eq_refl eq_refl); lia|].
  specialize (Hlt eq_refl eq_refl). lia.
Qed.

(** A pass that leaves the flag down returns its work-list as it was, and
    that list is settled. *)
Lemma pop_loop_quiet fuel l new new' :
  pop_loop fuel l new false = Some (new', false) → new' = new ++ l ∧ settled l.
Proof.
  revert l new. induction fuel as [|fuel IH]; intros l new Hr; [done|].
  simpl in Hr. destruct l as [|rect l].
  - simplify_eq. rewrite app_nil_r. split; [done|]. by intros i j a b _ ?.
  - destruct (for_loop fuel 0 rect l false) as [[[rect1 l1] m1]|] eqn:Hfor; [|done].
    simpl in Hr. destruct m1.
    + apply pop_loop_shrinks in Hr as (Hm & _). by specialize (Hm eq_refl).
    + apply for_loop_quiet in Hfor as (-> & -> & Hhead).
      apply IH in Hr as (-> & Htail). rewrite <- app_assoc. split; [done|].
      intros i j a b Hij Ha Hb. destruct j as [|j]; [lia|]. simpl in Hb.
      destruct i as [|i]; simpl in Ha.
      * simplify_eq. apply (Hhead j); [lia|done].
      * apply (Htail i j); [lia|done..].
Qed.

Lemma pop_loop_nothing fuel l new m :
  (length l < fuel)%nat → settled l → pop_loop fuel l new m = Some (new ++ l, m).
Proof.
  revert l new. induction fuel as [|fuel IH]; intros l new Hf Hs; [lia|].
  simpl. destruct l as [|rect l]; [by rewrite app_nil_r|]. simpl in Hf.
  rewrite for_loop_nothing; [|lia|].
  - simpl. rewrite IH; [by rewrite <- app_assoc|lia|].
    intros i j a b Hij Ha Hb. apply (Hs (S i) (S j)); [lia|done..].
  - intros j x _ Hx. apply (Hs 0%nat (S j)); [lia|done..].
Qed.

(** *** The [while merged] loop *)

Lemma pass_total fuel l : (length l < fuel)%nat → is_Some (pass fuel l).
Proof. apply pop_loop_total. Qed.

(** A pass that merges returns fewer rectangles than it was given. *)
Lemma pass_merged_shorter fuel l new :
  pass fuel l = Some (new, true) → (length new < length l)%nat.
Proof.
  intros Hp. apply pop_loop_shrinks in Hp as (_ & _ & Hlt). by apply Hlt.
Qed.

Lemma pass_quiet fuel l new : pass fuel l = Some (new, false) → new = l ∧ settled l.
Proof. apply pop_loop_quiet. Qed.

Lemma pass_settled fuel l :
  (length l < fuel)%nat → settled l → pass fuel l = Some (l, false).
Proof. intros. unfold merge_pass. by rewrite pop_loop_nothing. Qed.

Lemma passes_total fuel l :
  (length l + 2 ≤ fuel)%nat →
  ∃ out, passes fuel l = Some out ∧ settled out ∧ (length out ≤ length l)%nat.
Proof.
  revert l. induction fuel as [|fuel IH]; intros l Hf; [lia|]. simpl.
  destruct (pass_total fuel l) as [[new m] Hp]; [lia|]. rewrite Hp. simpl.
  destruct m.
  - apply pass_merged_shorter in Hp.
    destruct (IH new) as (out & -> & Hs & Hle); [lia|]. exists out. auto with lia.
  - apply pass_quiet in Hp as [-> Hs]. eauto.
Qed.

Lemma passes_fuel fuel fuel' l out :
  passes fuel l = Some out → (fuel ≤ fuel')%nat → passes fuel' l = Some out.
Proof.
  revert fuel' l. induction fuel as [|fuel IH]; intros fuel' l Hr Hf; [done|].
  destruct fuel' as [|fuel']; [lia|]. simpl in *.
  destruct (pass fuel l) as [[new m]|] eqn:Hp; [|done].
  unfold merge_pass in *. rewrite (pop_loop_fuel _ fuel' _ _ _ _ Hp) by lia. simpl in *.
  destruct m; [|done]. apply IH; [done|lia].
Qed.

Lemma passes_settled fuel l :
  (length l + 2 ≤ fuel)%nat → settled l → passes fuel l = Some l.
Proof.
  intros Hf Hs. destruct fuel as [|fuel]; [lia|]. simpl.
  rewrite pass_settled; [done|lia|done].
Qed.

(** The merger returns, whatever the fuel above [length rect_list + 2]. *)
Lemma merge_rects_fuel rect_list k :
  passes (length rect_list + 2 + k) rect_list
  = _merge_rects rect_list distance horizontal_distance.
Proof.
  unfold _merge_rects.
  destruct (passes_total (length rect_list + 2) rect_list) as (out & Hout & _); [lia|].
  rewrite Hout. apply passes_fuel with (fuel := (length rect_list + 2)%nat); [done|lia].
Qed.

Lemma merge_rects_total rect_list :
  ∃ out, _merge_rects rect_list distance horizontal_distance = Some out
         ∧ settled out ∧ (length out ≤ length rect_list)%nat.
Proof. apply passes_total. lia. Qed.

Lemma merge_rects_settled rect_list :
  settled rect_list → _merge_rects rect_list distance horizontal_distance = Some rect_list.
Proof. apply passes_settled. lia. Qed.

Lemma passes_count fuel l out :
  passes fuel l = Some out →
  ∃ n, merging_passes distance horizontal_distance n l out
       ∧ (n + length out ≤ length l)%nat.
Proof.
  revert l. induction fuel as [|fuel IH]; intros l Hr; [done|]. simpl in Hr.
  destruct (pass fuel l) as [[new m]|] eqn:Hp; [|done]. simpl in Hr. destruct m.
  - destruct (IH _ Hr) as (n & Hn & Hle). exists (S n).
    split; [by eapply merging_pass|]. apply pass_merged_shorter in Hp. lia.
  - simplify_eq. exists 0%nat. split; [by eapply quiet_pass|].
    apply pass_quiet in Hp as [-> _]. lia.
Qed.

(** A settled list has no pair that passes the merge test, in either
    order. *)
Lemma settled_apart out i j a b :
  settled out → i ≠ j → out !! i = Some a → out !! j = Some b →
  _is_near a b distance = false
  ∧ ∀ h, horizontal_distance = Some h → _is_horizontal_near a b h = false.
Proof.
  intros Hs Hij Ha Hb.
  assert (merge_test distance horizontal_distance a b = false) as Ht.
  { destruct (decide (i < j)%nat); [by apply (Hs i j)|].
    assert (merge_test distance horizontal_distance b a = false) as Ht
      by (apply (Hs j i); [lia|done..]).
    unfold merge_test in *. rewrite is_near_sym.
    destruct horizontal_distance; [|done]. by rewrite is_horizontal_near_sym. }
  unfold merge_test in Ht. apply orb_false_elim in Ht as [Hn Hh].
  split; [done|]. intros h ->. apply andb_false_iff in Hh as [Hh|Hh]; [|done].
  simpl in Hh. apply bool_decide_eq_false in Hh.
  assert (h = 0) as -> by (by destruct (decide (h = 0))).
  apply is_horizontal_near_0.
Qed.

(** *** What the output is made of

    A property of rectangles that unions keep holds of the output when it
    holds of the input. *)

Section Invariant.
Variable P : BaseGeometry → Prop.
Hypothesis P_union : ∀ a b, P a → P b → P (_union_rects a b).

Lemma for_loop_Forall fuel it rect l m rect' l' m' :
  for_loop fuel it rect l m = Some (rect', l', m') →
  P rect → Forall P l → P rect' ∧ Forall P l'.
Proof.
  revert it rect l m. induction fuel as [|fuel IH]; intros it rect l m Hr Hrect Hl; [done|].
  simpl in Hr. destruct (l !! it) as [other|] eqn:Hit; [|by simplify_eq].
  destruct (test rect other).
  - destruct (list_remove other l) as [l1|] eqn:Hl1; [|done]. simpl in Hr.
    rewrite Forall_forall in Hl. eapply IH; [done| |].
    + apply P_union; [done|]. by eapply Hl, list_elem_of_lookup_2.
    + apply Forall_forall. intros x Hx. eapply Hl, list_remove_elem_of; done.
  - by eapply IH.
Qed.

Lemma pop_loop_Forall fuel l new m new' m' :
  pop_loop fuel l new m = Some (new', m') → Forall P l → Forall P new → Forall P new'.
Proof.
  revert l new m. induction fuel as [|fuel IH]; intros l new m Hr Hl Hnew; [done|].
  simpl in Hr. destruct l as [|rect l]; [by simplify_eq|].
  destruct (for_loop fuel 0 rect l m) as [[[rect1 l1] m1]|] eqn:Hfor; [|done].
  simpl in Hr. apply Forall_cons in Hl as [Hrect Hl].
  destruct (for_loop_Forall _ _ _ _ _ _ _ _ Hfor Hrect Hl) as [Hrect1 Hl1].
  eapply IH; [done..|]. apply Forall_app. split; [done|]. by apply Forall_singleton.
Qed.

Lemma passes_Forall fuel l out : passes fuel l = Some out → Forall P l → Forall P out.
Proof.
  revert l. induction fuel as [|fuel IH]; intros l Hr Hl; [done|]. simpl in Hr.
  destruct (pass fuel l) as [[new m]|] eqn:Hp; [|done]. simpl in Hr.
  assert (Forall P new) as Hnew by (by eapply pop_loop_Forall).
  destruct m; [by eapply IH|by simplify_eq].
Qed.

Lemma merge_rects_Forall rect_list out :
  _merge_rects rect_list distance horizontal_distance = Some out →
  Forall P rect_list → Forall P out.
Proof. apply passes_Forall. Qed.

End Invariant.

(** C1: the Rectangle Merger is idempotent.  It returns a list [out];
    run on [out] it returns [out] again; and no two entries of [out] are
    near each other at [distance], nor horizontally near each other at the
    horizontal distance when one was passed. *)
Theorem merge_rects_idempotent (rect_list : list BaseGeometry) :
  ∃ out,
    _merge_rects rect_list distance horizontal_distance = Some out
    ∧ _merge_rects out distance horizontal_distance = Some out
    ∧ ∀ i j a b, i ≠ j → out !! i = Some a → out !! j = Some b →
        _is_near a b distance = false
        ∧ ∀ h, horizontal_distance = Some h → _is_horizontal_near a b h = false.
Proof.
  destruct (merge_rects_total rect_list) as (out & Hout & Hs & _).
  exists out. split; [done|]. split; [by apply merge_rects_settled|].
  intros i j a b. by apply settled_apart.
Qed.

(** C9: the Rectangle Merger terminates.  After some number [n] of merging
    passes, at most the length of the list, a pass merges nothing and the
    loop returns, with any fuel from [length rect_list + 2] on; and a pass
    that merges returns strictly fewer rectangles than it was given. *)
Theorem merge_rects_terminates (rect_list : list BaseGeometry) :
  (∃ n out,
      (n ≤ length rect_list)%nat
      ∧ merging_passes distance horizontal_distance n rect_list out
      ∧ ∀ k, passes (length rect_list + 2 + k) rect_list = Some out)
  ∧ ∀ fuel l new, pass fuel l = Some (new, true) → (length new < length l)%nat.
Proof.
  split; [|apply pass_merged_shorter].
  destruct (merge_rects_total rect_list) as (out & Hout & _).
  destruct (passes_count _ _ _ Hout) as (n & Hn & Hle).
  exists n, out. split; [lia|]. split; [done|].
  intros k. by rewrite merge_rects_fuel.
Qed.

End MergerFacts.

(** ** The Adsorption Pass *)

Section AdsorptionFacts.
Context `{Shapely}.
Variable distance : Qc.

Abbreviation near s t := (_is_near s t distance).
Abbreviation adsorption := (adsorption distance).

Lemma for_index_rect_spec s index rest targets targets' adsorbed :
  rest = drop index targets →
  for_index_rect distance s index rest targets = (targets', adsorbed) →
  if adsorbed then
    ∃ j t, (index ≤ j)%nat ∧ targets !! j = Some t ∧ near s t = true
      ∧ (∀ i t', (index ≤ i < j)%nat → targets !! i = Some t' → near s t' = false)
      ∧ targets' = <[j := _union_rects s t]> targets
  else
    targets' = targets
    ∧ ∀ i t', (index ≤ i)%nat → targets !! i = Some t' → near s t' = false.
Proof.
  revert index. induction rest as [|rect rest IH]; intros index Hrest Hr; simpl in Hr.
  - simplify_eq. split; [done|]. intros i t' Hi Ht'.
    symmetry in Hrest. apply drop_nil_inv in Hrest.
    apply lookup_lt_Some in Ht'. lia.
  - assert (targets !! index = Some rect) as Hrect.
    { rewrite <- (Nat.add_0_r index), <- lookup_drop, <- Hrest. done. }
    assert (rest = drop (S index) targets) as Hrest'.
    { rewrite <- Nat.add_1_r, <- drop_drop, <- Hrest. done. }
    destruct (near s rect) eqn:Hnear.
    + simplify_eq. exists index, rect. split_and!; try done. intros; lia.
    + specialize (IH _ Hrest' Hr). destruct adsorbed.
      * destruct IH as (j & t & Hj & Ht & Hn & Hfirst & ->).
        exists j, t. split_and!; try done; [lia|].
        intros i t' Hi Ht'. destruct (decide (i = index)) as [->|]; [congruence|].
        apply (Hfirst i); [lia|done].
      * destruct IH as [-> Hall]. split; [done|].
        intros i t' Hi Ht'. destruct (decide (i = index)) as [->|]; [congruence|].
        apply (Hall i); [lia|done].
Qed.

Lemma for_text_area_rect_spec sources acc targets :
  ∃ fates,
    adsorption sources targets fates
      (for_text_area_rect distance sources acc targets).2
    ∧ (for_text_area_rect distance sources acc targets).1
      = acc ++ fated None sources fates.
Proof.
  revert acc targets. induction sources as [|s sources IH]; intros acc targets; simpl.
  - exists []. split; [constructor|]. by rewrite app_nil_r.
  - destruct (for_index_rect distance s 0 targets targets) as [targets1 adsorbed] eqn:Hscan.
    apply for_index_rect_spec in Hscan; [|done]. destruct adsorbed.
    + destruct Hscan as (j & t & _ & Ht & Hn & Hfirst & ->).
      destruct (IH acc (<[j := _union_rects s t]> targets)) as (fates & Hads & Hleft).
      exists (Some j :: fates). split.
      * eapply adsorption_into; try done. intros i t' Hi. apply Hfirst. lia.
      * rewrite Hleft. done.
    + destruct Hscan as [-> Hall].
      destruct (IH (acc ++ [s]) targets) as (fates & Hads & Hleft).
      exists (None :: fates). split.
      * apply adsorption_left; [|done]. intros t [i Hi]%list_elem_of_lookup.
        apply (Hall i); [lia|done].
      * rewrite Hleft, <- app_assoc. done.
Qed.

Lemma fated_cons f s sources g fates :
  fated f (s :: sources) (g :: fates)
  = if decide (g = f) then s :: fated f sources fates else fated f sources fates.
Proof.
  unfold fated. simpl. rewrite filter_cons. simpl. by case_decide.
Qed.

Lemma adsorption_length sources targets fates targets' :
  adsorption sources targets fates targets' →
  length fates = length sources ∧ length targets' = length targets.
Proof.
  induction 1 as [|s sources targets j t fates targets' _ _ _ _ [IHf IHt]
                  |s sources targets fates targets' _ _ [IHf IHt]]; simpl.
  - done.
  - rewrite length_insert in IHt. auto with lia.
  - auto with lia.
Qed.

(** Every fate names a target that exists. *)
Lemma adsorption_fates sources targets fates targets' k j :
  adsorption sources targets fates targets' →
  fates !! k = Some (Some j) → (j < length targets)%nat.
Proof.
  intros Hads. revert k.
  induction Hads as [|s sources targets j' t fates targets' Ht _ _ _ IH
                     |s sources targets fates targets' _ _ IH]; intros k Hk.
  - done.
  - destruct k as [|k]; simpl in Hk.
    + simplify_eq. by eapply lookup_lt_Some.
    + specialize (IH _ Hk). by rewrite length_insert in IH.
  - destruct k as [|k]; simpl in Hk; [done|]. by eapply IH.
Qed.

(** A target ends as itself, grown by the sources it adsorbed, in the order
    of the source list. *)
Lemma adsorption_targets sources targets fates targets' j t :
  adsorption sources targets fates targets' →
  targets !! j = Some t →
  targets' !! j
  = Some (foldl (λ t s, _union_rects s t) t (fated (Some j) sources fates)).
Proof.
  intros Hads. revert t.
  induction Hads as [|s sources targets j' t' fates targets' Ht' _ _ _ IH
                     |s sources targets fates targets' _ _ IH]; intros t Ht.
  - done.
  - rewrite fated_cons. case_decide as Hj.
    + simplify_eq. simpl. apply IH. rewrite list_lookup_insert_eq; [done|].
      by eapply lookup_lt_Some.
    + apply IH. rewrite list_lookup_insert_ne; [done|]. congruence.
  - rewrite fated_cons. case_decide; [done|]. by apply IH.
Qed.

Lemma mjoin_seq_cons {A} (f g : nat → list A) (x : A) j a n :
  (a ≤ j < a + n)%nat →
  g j = x :: f j → (∀ i, i ≠ j → g i = f i) →
  mjoin (g <$> seq a n) ≡ₚ x :: mjoin (f <$> seq a n).
Proof.
  revert a. induction n as [|n IH]; intros a Hj Hgj Hg; [lia|]. simpl.
  destruct (decide (a = j)) as [->|Hne].
  - rewrite Hgj. simpl. do 2 f_equiv.
    erewrite list_fmap_ext; [done|]. intros i k [-> Hk]%lookup_seq. apply Hg. lia.
  - rewrite (Hg a Hne), (IH (S a)); [|lia|done..].
    by rewrite Permutation_middle.
Qed.

(** The sources are the left-over ones together with those each target
    adsorbed: none is lost and none is counted twice. *)
Lemma adsorption_conserves sources targets fates targets' :
  adsorption sources targets fates targets' →
  sources ≡ₚ fated None sources fates
             ++ mjoin ((λ j, fated (Some j) sources fates) <$> seq 0 (length targets)).
Proof.
  induction 1 as [|s sources targets j t fates targets' Ht _ _ _ IH
                  |s sources targets fates targets' _ _ IH].
  - unfold fated. simpl. generalize 0%nat.
    induction (length targets) as [|n IHn]; intros a; [done|]. simpl. apply IHn.
  - rewrite length_insert in IH. rewrite fated_cons. case_decide; [done|].
    rewrite (mjoin_seq_cons (λ j, fated (Some j) sources fates) _ s j).
    + rewrite <- Permutation_middle. by f_equiv.
    + apply lookup_lt_Some in Ht. lia.
    + rewrite fated_cons. by case_decide.
    + intros i Hi. rewrite fated_cons. case_decide; [congruence|done].
  - rewrite fated_cons. case_decide; [|done]. simpl. f_equiv.
    rewrite IH at 1. f_equiv. erewrite list_fmap_ext; [done|].
    intros i k _. simpl. rewrite fated_cons. by case_decide.
Qed.

Lemma fated_sublist f sources fates : fated f sources fates `sublist_of` sources.
Proof.
  revert fates. induction sources as [|s sources IH]; intros [|g fates];
    try (unfold fated; simpl; apply sublist_nil_l).
  rewrite fated_cons. case_decide; [by apply sublist_skip|by apply sublist_cons].
Qed.

(** A property of targets that the union with a source keeps holds of the
    targets in the end. *)
Lemma adsorb_rects_Forall (P Q : BaseGeometry → Prop) source_rects target_rects :
  (∀ s t, Q s → P t → P (_union_rects s t)) →
  Forall Q source_rects → Forall P target_rects →
  Forall P (_adsorb_rects_to_rects source_rects target_rects distance).2.
Proof.
  intros HPQ Hs Ht. unfold _adsorb_rects_to_rects.
  destruct (for_text_area_rect_spec source_rects [] target_rects) as (fates & Hads & _).
  apply Forall_lookup. intros j x Hx.
  destruct (adsorption_length _ _ _ _ Hads) as [_ Hlen].
  destruct (lookup_lt_is_Some_2 target_rects j) as [t Hj].
  { rewrite <- Hlen. by eapply lookup_lt_Some. }
  rewrite (adsorption_targets _ _ _ _ _ _ Hads Hj) in Hx. simplify_eq.
  rewrite Forall_lookup in Ht. specialize (Ht _ _ Hj).
  assert (Forall Q (fated (Some j) source_rects fates)) as Hf.
  { rewrite Forall_forall in Hs. apply Forall_forall. intros s Hin.
    eapply Hs, elem_of_sublist; [done|apply fated_sublist]. }
  clear Hj. revert t Ht. induction Hf as [|s ss Hs' _ IH]; intros t Ht; simpl; [done|].
  apply IH. by apply HPQ.
Qed.

Lemma adsorb_rects_length source_rects target_rects :
  length (_adsorb_rects_to_rects source_rects target_rects distance).2
  = length target_rects.
Proof.
  unfold _adsorb_rects_to_rects.
  destruct (for_text_area_rect_spec source_rects [] target_rects) as (fates & Hads & _).
  by apply adsorption_length in Hads as [_ ?].
Qed.

(** When every source is left over, the targets are as they were. *)
Lemma adsorption_all_left sources targets fates targets' :
  adsorption sources targets fates targets' →
  fated None sources fates = sources → targets' = targets.
Proof.
  induction 1 as [|s sources targets j t fates targets' _ _ _ _ _
                  |s sources targets fates targets' _ _ IH]; intros Hall.
  - done.
  - rewrite fated_cons in Hall. case_decide; [done|].
    pose proof (sublist_length _ _ (fated_sublist None sources fates)) as Hlen.
    rewrite Hall in Hlen. simpl in Hlen. lia.
  - rewrite fated_cons in Hall. case_decide; [|done]. simplify_eq. by apply IH.
Qed.

Lemma adsorb_rects_all_left source_rects target_rects :
  (_adsorb_rects_to_rects source_rects target_rects distance).1 = source_rects →
  (_adsorb_rects_to_rects source_rects target_rects distance).2 = target_rects.
Proof.
  unfold _adsorb_rects_to_rects.
  destruct (for_text_area_rect_spec source_rects [] target_rects) as (fates & Hads & Hleft).
  rewrite Hleft. simpl. by apply adsorption_all_left.
Qed.

(** C2: the Adsorption Pass accounts for each source once.  There is one
    fate per source: unioned into the first target near it, which it
    replaces in place, or left over.  The left-over list is the sources of
    fate [None] in their order; the sources are, up to order, the left-over
    ones and those each target adsorbed; the target list keeps its length,
    and the target at index [j] ends as the old one grown by the sources
    that went to [j]: no source is unioned with anything but a target. *)
Theorem adsorb_rects_to_rects_conserves (source_rects target_rects : list BaseGeometry) :
  ∃ fates : list fate,
    let new_source_rects := (_adsorb_rects_to_rects source_rects target_rects distance).1 in
    let target_rects' := (_adsorb_rects_to_rects source_rects target_rects distance).2 in
    adsorption source_rects target_rects fates target_rects'
    ∧ length fates = length source_rects
    ∧ new_source_rects = fated None source_rects fates
    ∧ new_source_rects `sublist_of` source_rects
    ∧ source_rects
      ≡ₚ new_source_rects
         ++ mjoin ((λ j, fated (Some j) source_rects fates) <$> seq 0 (length target_rects))
    ∧ length target_rects' = length target_rects
    ∧ ∀ j t, target_rects !! j = Some t →
        target_rects' !! j
        = Some (foldl (λ t s, _union_rects s t) t (fated (Some j) source_rects fates)).
Proof.
  unfold _adsorb_rects_to_rects.
  destruct (for_text_area_rect_spec source_rects [] target_rects) as (fates & Hads & Hleft).
  simpl in Hleft. exists fates. simpl.
  destruct (adsorption_length _ _ _ _ Hads) as [Hf Ht].
  split_and!; try done.
  - rewrite Hleft. apply fated_sublist.
  - rewrite Hleft. by eapply adsorption_conserves.
  - intros j t. by apply adsorption_targets.
Qed.

End AdsorptionFacts.

(** ** The Page Segmenter *)

Lemma split_lines_length s : length (split_lines s) = S (newlines s).
Proof.
  induction s as [|c s IH]; [done|]. simpl. case_decide; simpl; [by rewrite IH|].
  destruct (split_lines s); simpl in *; [done|]. done.
Qed.

Lemma true_div_gt (n a b : nat) :
  (0 < b)%nat → fl (inject_Z (Z.of_nat n)) < true_div a b ↔ (n * b < a)%nat.
Proof.
  intros Hb. unfold true_div, fl, Qclt. simpl. rewrite !Qred_correct.
  unfold Qlt. simpl. rewrite Z.mul_1_r.
  replace (Z.pos (Pos.of_nat b)) with (Z.of_nat b); [lia|].
  destruct b; [lia|]. rewrite <- Pos.of_nat_succ, Zpos_P_of_succ_nat. lia.
Qed.

Section SegmenterFacts.
Context `{Shapely}.

(** [_parse_rects] returns, and this is how. *)
Lemma parse_rects_total page :
  ∃ merged1 merged2,
    _merge_rects (pool page) (fl 10) (Some (fl 100)) = Some merged1
    ∧ _merge_rects (adsorbed_targets page merged1) (fl 10) None = Some merged2
    ∧ _parse_rects page
      = Some (bounds <$> filter (λ rect, big_enough (bounds rect)) merged2).
Proof.
  destruct (merge_rects_total (fl 10) (Some (fl 100)) (pool page)) as (merged1 & H1 & _).
  destruct (merge_rects_total (fl 10) None (adsorbed_targets page merged1))
    as (merged2 & H2 & _).
  exists merged1, merged2. split; [done|]. split; [done|].
  unfold _parse_rects. rewrite H1. simpl.
  unfold adsorbed_targets in H2.
  destruct (_adsorb_rects_to_rects (large_text_area_rects page) _ _) as [left1 targets1].
  destruct (_adsorb_rects_to_rects (small_text_area_rects page) _ _) as [left2 targets2].
  simpl in H2. rewrite H2. done.
Qed.

Lemma pool_elem_of page y :
  y ∈ pool page →
  ∃ r, (r ∈ get_drawings page ∨ r ∈ get_image_info page) ∧ y = box_of r.
Proof.
  unfold pool. intros [Hy|Hy]%elem_of_app.
  - apply list_elem_of_fmap in Hy as (r & -> & Hr).
    apply list_elem_of_filter in Hr as [_ Hr]. eauto.
  - apply list_elem_of_fmap in Hy as (r & -> & Hr). eauto.
Qed.

Lemma pool_length page :
  (length (pool page) ≤ length (get_drawings page) + length (get_image_info page))%nat.
Proof.
  unfold pool. rewrite length_app, !length_fmap.
  pose proof (length_filter (λ drawing, ¬ is_short_line drawing) (get_drawings page)). lia.
Qed.

Lemma text_area_rects_elem_of page y :
  y ∈ large_text_area_rects page ++ small_text_area_rects page →
  ∃ x, x ∈ get_text_blocks page ∧ y = box_of (block_bbox x).
Proof.
  unfold large_text_area_rects, small_text_area_rects.
  intros [Hy|Hy]%elem_of_app; apply list_elem_of_fmap in Hy as (x & -> & Hx);
    apply list_elem_of_filter in Hx as [_ Hx]; eauto.
Qed.

(** A property that unions keep and that the rectangles of the page have
    holds of the merged rectangles behind the output. *)
Lemma parse_rects_Forall (P : BaseGeometry → Prop) page :
  (∀ a b, P a → P b → P (_union_rects a b)) →
  Forall P (pool page) →
  Forall P (large_text_area_rects page ++ small_text_area_rects page) →
  ∃ merged_rects,
    _parse_rects page = Some (bounds <$> merged_rects) ∧ Forall P merged_rects.
Proof.
  intros HP Hpool [Hlarge Hsmall]%Forall_app.
  destruct (parse_rects_total page) as (merged1 & merged2 & H1 & H2 & ->).
  eexists. split; [done|]. apply Forall_forall. intros x [_ Hx]%list_elem_of_filter.
  revert x Hx. apply Forall_forall.
  eapply merge_rects_Forall; [done..|]. unfold adsorbed_targets.
  eapply adsorb_rects_Forall; [done..|].
  eapply adsorb_rects_Forall; [done..|].
  apply Forall_forall. intros x [_ Hx]%list_elem_of_filter. revert x Hx.
  apply Forall_forall. by eapply merge_rects_Forall.
Qed.

(** A page all of whose rectangles are [(5, 5, 15, 15)] has no region. *)
Lemma parse_rects_lone_small page :
  let lone := Tuple4 (fl 5) (fl 5) (fl 15) (fl 15) in
  (∀ r, r ∈ get_drawings page ∨ r ∈ get_image_info page → r = lone) →
  (∀ x, x ∈ get_text_blocks page → block_bbox x = lone) →
  _parse_rects page = Some [].
Proof.
  intros lone Hpool Htext.
  assert (bounds (box_of lone) = lone) as Hlone.
  { apply bounds_box_of. split; by vm_compute. }
  destruct (parse_rects_Forall (λ x, covers lone (bounds x)) page)
    as (merged_rects & Hp & Hin).
  - intros a b. apply within_union.
  - apply Forall_forall. intros y (r & Hr & ->)%pool_elem_of.
    rewrite (Hpool r Hr), Hlone. apply covers_refl.
  - apply Forall_forall. intros y (x & Hx & ->)%text_area_rects_elem_of.
    rewrite (Htext x Hx), Hlone. apply covers_refl.
  - destruct (parse_rects_total page) as (merged1 & merged2 & _ & H2 & Hout).
    rewrite Hout in *. f_equal. simplify_eq.
    destruct (filter _ merged2) as [|x rest] eqn:Hf; [done|]. exfalso.
    assert (x ∈ filter (λ rect, big_enough (bounds rect)) merged2) as Hx
      by (rewrite Hf; left).
    apply list_elem_of_filter in Hx as [Hbig _].
    assert (bounds x ∈ bounds <$> merged_rects) as Hb by (rewrite <- Hp; left).
    apply list_elem_of_fmap in Hb as (x' & Hxx' & Hx').
    rewrite Forall_forall in Hin. specialize (Hin _ Hx'). rewrite <- Hxx' in Hin.
    unfold big_enough in Hbig. apply andb_prop_elim in Hbig as [Hw _].
    apply bool_decide_unpack in Hw. destruct Hin as (Hx0 & _ & Hx1 & _).
    simpl in *. revert Hw Hx0 Hx1. unfold Qcminus, Qcplus, Qcopp, fl.
    generalize (x0 (bounds x)) (x1 (bounds x)). intros p q Hw Hx0 Hx1. qc_order.
Qed.

(** C6: every rectangle of the final output is wider than 20 and higher
    than 20; so [(5, 5, 15, 15)] is never one of them, and a page whose
    only content is that rectangle, as a text block, as a drawing or as an
    image, has no region at all. *)
Theorem parse_rects_size_filter (page : Page) :
  let lone := Tuple4 (fl 5) (fl 5) (fl 15) (fl 15) in
  (∃ out,
      _parse_rects page = Some out
      ∧ (∀ b, b ∈ out → fl 20 < x1 b - x0 b ∧ fl 20 < y1 b - y0 b)
      ∧ lone ∉ out)
  ∧ (∀ text,
      _parse_rects {| get_drawings := []; get_image_info := [];
                      get_text_blocks := [Block lone text] |} = Some [])
  ∧ _parse_rects {| get_drawings := [lone]; get_image_info := [];
                    get_text_blocks := [] |} = Some []
  ∧ _parse_rects {| get_drawings := []; get_image_info := [lone];
                    get_text_blocks := [] |} = Some [].
Proof.
  intros lone. split_and!.
  - destruct (parse_rects_total page) as (merged1 & merged2 & _ & _ & ->).
    eexists. split; [done|].
    assert (∀ b, b ∈ bounds <$> filter (λ rect, big_enough (bounds rect)) merged2 →
                 fl 20 < x1 b - x0 b ∧ fl 20 < y1 b - y0 b) as Hsize.
    { intros b (rect & -> & Hrect)%list_elem_of_fmap.
      apply list_elem_of_filter in Hrect as [Hbig _].
      unfold big_enough in Hbig. apply andb_prop_elim in Hbig as [Hw Hh].
      by apply bool_decide_unpack in Hw, Hh. }
    split; [done|]. intros [Hw _]%Hsize. by vm_compute in Hw.
  - intros text. apply parse_rects_lone_small; simpl.
    + intros r [Hr|Hr]; by apply elem_of_nil in Hr.
    + by intros x ->%list_elem_of_singleton.
  - apply parse_rects_lone_small; simpl.
    + intros r [Hr|Hr]; [by apply list_elem_of_singleton in Hr|by apply elem_of_nil in Hr].
    + intros x Hx. by apply elem_of_nil in Hx.
  - apply parse_rects_lone_small; simpl.
    + intros r [Hr|Hr]; [by apply elem_of_nil in Hr|by apply list_elem_of_singleton in Hr].
    + intros x Hx. by apply elem_of_nil in Hx.
Qed.

(** C7, as the code has it: a text block is large exactly when the
    number of its characters, newlines included, exceeds 5 times the number
    of its newline-separated segments (one more than its newlines).  Every
    block is in one of the two classes; the large ones are adsorbed first,
    at distance 0.1, into the valid merged rectangles, then the small ones
    at distance 5. *)
Theorem text_block_classification (page : Page) :
  (∀ x : TextBlock,
      is_large_content x = true
      ↔ (5 * S (newlines (block_text x)) < String.length (block_text x))%nat)
  ∧ large_text_area_rects page
    = (λ x, box_of (block_bbox x))
        <$> filter (λ x, is_large_content x = true) (get_text_blocks page)
  ∧ small_text_area_rects page
    = (λ x, box_of (block_bbox x))
        <$> filter (λ x, is_large_content x = false) (get_text_blocks page)
  ∧ ∃ merged1 merged2,
      _merge_rects (pool page) (fl 10) (Some (fl 100)) = Some merged1
      ∧ _merge_rects
          (_adsorb_rects_to_rects (small_text_area_rects page)
             (_adsorb_rects_to_rects (large_text_area_rects page)
                (filter (λ rect, explain_validity rect = "Valid Geometry") merged1)
                (fl 0.1)).2
             (fl 5)).2
          (fl 10) None = Some merged2
      ∧ _parse_rects page
        = Some (bounds <$> filter (λ rect, big_enough (bounds rect)) merged2).
Proof.
  split_and!.
  - intros x. unfold is_large_content. rewrite bool_decide_eq_true.
    rewrite split_lines_length, Nat.max_r by lia.
    apply (true_div_gt 5). lia.
  - unfold large_text_area_rects. f_equal. apply list_filter_iff.
    intros x. destruct (is_large_content x); naive_solver.
  - unfold small_text_area_rects. f_equal. apply list_filter_iff.
    intros x. destruct (is_large_content x); naive_solver.
  - apply parse_rects_total.
Qed.

(** C10: text that no target adsorbs is not in the output.  The segmenter
    returns; every rectangle it returns contains the rectangle of a drawing
    or of an image of the page; there are no more of them than drawings and
    images; a page without drawings and images has none, whatever its text
    blocks; and when both adsorption calls leave every text block over, the
    output is that of the page without its text. *)
Theorem parse_rects_discards_text (page : Page) :
  ∃ out,
    _parse_rects page = Some out
    ∧ (∀ b, b ∈ out →
         ∃ r, (r ∈ get_drawings page ∨ r ∈ get_image_info page)
              ∧ covers b (bounds (box_of r)))
    ∧ (length out ≤ length (get_drawings page) + length (get_image_info page))%nat
    ∧ (get_drawings page = [] → get_image_info page = [] → out = [])
    ∧ ∀ merged_rects,
        _merge_rects (pool page) (fl 10) (Some (fl 100)) = Some merged_rects →
        let targets :=
          filter (λ rect, explain_validity rect = "Valid Geometry") merged_rects in
        (_adsorb_rects_to_rects (large_text_area_rects page) targets (fl 0.1)).1
        = large_text_area_rects page →
        (_adsorb_rects_to_rects (small_text_area_rects page) targets (fl 5)).1
        = small_text_area_rects page →
        _parse_rects (without_text page) = Some out.
Proof.
  destruct (parse_rects_total page) as (merged1 & merged2 & H1 & H2 & Hout).
  rewrite Hout. eexists. split; [done|].
  assert (Forall (derived (pool page)) merged2) as Hder.
  { eapply merge_rects_Forall; [|done|]; [intros a b Ha _; by apply derived_union|].
    unfold adsorbed_targets.
    apply adsorb_rects_Forall with (Q := λ _, True);
      [intros s t _; apply derived_union_r|by apply Forall_true|].
    apply adsorb_rects_Forall with (Q := λ _, True);
      [intros s t _; apply derived_union_r|by apply Forall_true|].
    apply Forall_forall. intros x [_ Hx]%list_elem_of_filter. revert x Hx.
    apply Forall_forall. eapply merge_rects_Forall; [|done|apply derived_self].
    intros a b Ha _. by apply derived_union. }
  assert (length (bounds <$> filter (λ rect, big_enough (bounds rect)) merged2)
          ≤ length (pool page))%nat as Hlen.
  { rewrite length_fmap.
    destruct (merge_rects_total (fl 10) None (adsorbed_targets page merged1))
      as (? & ? & _ & Hle2).
    destruct (merge_rects_total (fl 10) (Some (fl 100)) (pool page)) as (? & ? & _ & Hle1).
    simplify_eq. unfold adsorbed_targets in Hle2.
    rewrite !adsorb_rects_length in Hle2.
    pose proof (length_filter (λ rect, big_enough (bounds rect)) merged2).
    pose proof (length_filter (λ rect, explain_validity rect = "Valid Geometry") merged1).
    lia. }
  split_and!.
  - intros b (x & -> & [_ Hx]%list_elem_of_filter)%list_elem_of_fmap.
    rewrite Forall_forall in Hder. destruct (Hder x Hx) as (y & Hy & Hc).
    apply pool_elem_of in Hy as (r & Hr & ->). eauto.
  - pose proof (pool_length page). lia.
  - intros Hd Hi. pose proof (pool_length page) as Hpool. rewrite Hd, Hi in Hpool.
    simpl in Hpool. apply length_zero_iff_nil. lia.
  - intros merged_rects Hm targets Hlarge Hsmall.
    rewrite H1 in Hm. injection Hm as <-.
    destruct (parse_rects_total (without_text page)) as (merged1' & merged2' & H1' & H2' & ->).
    change (pool (without_text page)) with (pool page) in H1'.
    rewrite H1 in H1'. injection H1' as <-.
    assert (adsorbed_targets page merged1 = targets) as Hsame.
    { unfold adsorbed_targets. fold targets.
      rewrite (adsorb_rects_all_left _ _ _ Hlarge).
      by apply adsorb_rects_all_left. }
    assert (adsorbed_targets (without_text page) merged1 = targets) as Hnone by done.
    rewrite Hsame in H2. rewrite Hnone in H2'. rewrite H2 in H2'. by injection H2' as <-.
Qed.

End SegmenterFacts.

(** ** The lists of the caller *)

Section StoreFacts.
Context `{Shapely}.
Implicit Types (h : heap) (p q : loc) (l : list BaseGeometry).

Section MergerObjFacts.
Variable distance : Qc.
Variable horizontal_distance : option Qc.

(** The [for] loop on the store does to the list at [rect_list] what the
    loop by value computes, and touches nothing else. *)
Lemma for_other_rect_refines fuel it rect p m h l rect' l' m' :
  h !! p = Some l →
  for_other_rect distance horizontal_distance fuel it rect l m = Some (rect', l', m') →
  for_other_rect_obj distance horizontal_distance fuel it rect p m h
  = Some (rect', m', <[p := l']> h).
Proof.
  revert it rect m h l. induction fuel as [|fuel IH]; intros it rect m h l Hp Hr; [done|].
  simpl in *. unfold list_next. rewrite Hp. simpl.
  destruct (l !! it) as [other|].
  - destruct (merge_test _ _ rect other).
    + destruct (list_remove other l) as [l1|] eqn:Hl1; [|done]. simpl in Hr.
      unfold list_remove_obj. rewrite Hp. simpl. rewrite Hl1. simpl.
      erewrite IH; [|apply list_lookup_insert_eq; by eapply lookup_lt_Some|done].
      by rewrite list_insert_insert_eq.
    + by apply IH with (l := l).
  - simplify_eq. by rewrite list_insert_id.
Qed.

Lemma while_rect_list_refines fuel p q m h l new new' m' :
  h !! p = Some l → h !! q = Some new → p ≠ q →
  while_rect_list distance horizontal_distance fuel l new m = Some (new', m') →
  while_rect_list_obj distance horizontal_distance fuel p q m h
  = Some (m', <[q := new']> (<[p := []]> h)).
Proof.
  revert m h l new. induction fuel as [|fuel IH]; intros m h l new Hp Hq Hpq Hr; [done|].
  simpl in *. unfold list_bool. rewrite Hp. simpl.
  assert (p < length h)%nat as Hplt by (by eapply lookup_lt_Some).
  assert (q < length h)%nat as Hqlt by (by eapply lookup_lt_Some).
  destruct l as [|rect l].
  - case_bool_decide; [done|]. simplify_eq.
    by rewrite (list_insert_id h p), list_insert_id.
  - case_bool_decide; [|done]. unfold list_pop0. rewrite Hp. simpl.
    destruct (for_other_rect _ _ fuel 0 rect l m) as [[[rect1 l1] m1]|] eqn:Hfor; [|done].
    simpl in Hr.
    erewrite for_other_rect_refines;
      [|apply list_lookup_insert_eq; by eapply lookup_lt_Some|done].
    simpl. unfold list_append.
    rewrite list_insert_insert_eq, list_lookup_insert_ne, Hq by done. simpl.
    erewrite IH; [| | |done|done].
    + f_equal. f_equal.
      rewrite (list_insert_insert_ne _ p q) by done.
      by rewrite !list_insert_insert_eq.
    + rewrite list_lookup_insert_ne by done. by apply list_lookup_insert_eq.
    + apply list_lookup_insert_eq. by rewrite length_insert.
Qed.

(** The passes on the store: the list of the caller is left empty, the
    result is a list made after the call, by the last pass; the lists of
    the passes before it are left empty too. *)
Lemma while_merged_refines fuel p h l out :
  h !! p = Some l →
  while_merged distance horizontal_distance fuel l = Some out →
  ∃ k, while_merged_obj distance horizontal_distance fuel p h
       = Some ((length h + k)%nat, <[p := []]> h ++ replicate k [] ++ [out]).
Proof.
  revert p h l. induction fuel as [|fuel IH]; intros p h l Hp Hr; [done|].
  simpl in *. unfold merge_pass in Hr.
  assert (p < length h)%nat as Hplt by (by eapply lookup_lt_Some).
  destruct (while_rect_list _ _ fuel l [] false) as [[new m]|] eqn:Hpass; [|done].
  simpl in Hr.
  erewrite (while_rect_list_refines fuel p (length h) false (h ++ [[]]));
    [|by apply lookup_app_l_Some|by rewrite lookup_app_r, Nat.sub_diag|lia|done].
  simpl.
  assert (<[length h := new]> (<[p := []]> (h ++ [[]])) = <[p := []]> h ++ [new]) as ->.
  { rewrite insert_app_l by done.
    rewrite <- (length_insert h p []) at 1.
    by rewrite <- (Nat.add_0_r (length (<[p:=[]]> h))), insert_app_r. }
  destruct m.
  - destruct (IH (length h) (<[p := []]> h ++ [new]) new) as (k & ->); [|done|].
    { rewrite <- (length_insert h p []) at 1.
      by rewrite lookup_app_r, Nat.sub_diag. }
    exists (S k). f_equal. f_equal.
    + rewrite length_app, length_insert. simpl. lia.
    + rewrite <- (length_insert h p []) at 1.
      rewrite <- (Nat.add_0_r (length (<[p:=[]]> h))), insert_app_r. simpl.
      by rewrite <- app_assoc.
  - simplify_eq. exists 0%nat. by rewrite Nat.add_0_r.
Qed.

End MergerObjFacts.

Section AdsorptionObjFacts.
Variable distance : Qc.

Lemma for_index_rect_length s index rest targets :
  length (for_index_rect distance s index rest targets).1 = length targets.
Proof.
  revert index. induction rest as [|rect rest IH]; intros index; simpl; [done|].
  destruct (_is_near s rect distance); simpl; [by rewrite length_insert|apply IH].
Qed.

Lemma for_index_rect_refines fuel s index t h targets targets' adsorbed :
  h !! t = Some targets →
  (length targets - index < fuel)%nat →
  for_index_rect distance s index (drop index targets) targets = (targets', adsorbed) →
  for_index_rect_obj distance fuel s index t h = Some (adsorbed, <[t := targets']> h).
Proof.
  intros Ht. revert index. induction fuel as [|fuel IH]; intros index Hf Hr; [lia|].
  simpl. unfold list_next. rewrite Ht. simpl.
  destruct (targets !! index) as [rect|] eqn:Hindex.
  - rewrite (drop_S _ _ _ Hindex) in Hr. simpl in Hr.
    apply lookup_lt_Some in Hindex as Hlt.
    destruct (_is_near s rect distance).
    + simplify_eq. unfold list_setitem. rewrite Ht. simpl. by case_decide.
    + apply IH; [lia|done].
  - rewrite drop_ge in Hr by (by apply lookup_ge_None_1). simpl in Hr. simplify_eq.
    by rewrite list_insert_id.
Qed.

Lemma for_text_area_rect_refines fuel it s n t h sources acc targets acc' targets' :
  h !! s = Some sources → h !! t = Some targets → h !! n = Some acc →
  s ≠ t → s ≠ n → t ≠ n →
  (length sources - it + length targets + 1 < fuel)%nat →
  for_text_area_rect distance (drop it sources) acc targets = (acc', targets') →
  for_text_area_rect_obj distance fuel it s n t h
  = Some (<[n := acc']> (<[t := targets']> h)).
Proof.
  intros Hs Ht Hn Hst Hsn Htn. revert it h acc targets Hs Ht Hn.
  induction fuel as [|fuel IH]; intros it h acc targets Hs Ht Hn Hf Hr; [lia|].
  simpl. unfold list_next. rewrite Hs. simpl.
  assert (t < length h)%nat as Htlt by (by eapply lookup_lt_Some).
  assert (n < length h)%nat as Hnlt by (by eapply lookup_lt_Some).
  destruct (sources !! it) as [text|] eqn:Hit.
  - rewrite (drop_S _ _ _ Hit) in Hr. simpl in Hr.
    apply lookup_lt_Some in Hit as Hlt.
    destruct (for_index_rect distance text 0 targets targets) as [targets1 adsorbed]
      eqn:Hscan.
    pose proof (for_index_rect_length text 0 targets targets) as Hlen.
    rewrite Hscan in Hlen. simpl in Hlen.
    rewrite (for_index_rect_refines fuel text 0 t h targets targets1 adsorbed);
      [|done|lia|done].
    simpl. destruct adsorbed; simpl.
    + rewrite (IH (S it) (<[t := targets1]> h) acc targets1); [| | | |lia|done].
      * by rewrite list_insert_insert_eq.
      * by rewrite list_lookup_insert_ne.
      * by apply list_lookup_insert_eq.
      * by rewrite list_lookup_insert_ne.
    + unfold list_append. rewrite list_lookup_insert_ne, Hn by done. simpl.
      rewrite (IH (S it) (<[n := acc ++ [text]]> (<[t := targets1]> h))
                 (acc ++ [text]) targets1); [| | | |lia|done].
      * rewrite (list_insert_insert_ne _ t n) by done.
        by rewrite !list_insert_insert_eq.
      * by rewrite !list_lookup_insert_ne.
      * rewrite list_lookup_insert_ne by done. by apply list_lookup_insert_eq.
      * apply list_lookup_insert_eq. by rewrite length_insert.
  - rewrite drop_ge in Hr by (by apply lookup_ge_None_1). simpl in Hr. simplify_eq.
    by rewrite (list_insert_id h t), list_insert_id.
Qed.

End AdsorptionObjFacts.

(** C8, as the code has it.  Both steps change lists of their caller, and
    only lists they were passed.  The merger leaves [rect_list] empty and
    returns a list made during the call, holding what [_merge_rects]
    computes; the lists of the passes before the last are left empty.  The
    adsorption pass returns the left-over sources in a new list and the
    target list it was passed, the same object, whose entries it has
    overwritten; the source list is as it was.  Every other list of the
    store is as it was. *)
Theorem steps_change_their_list_arguments (h : heap) :
  (∀ rect_list l distance horizontal_distance,
      h !! rect_list = Some l →
      ∃ k out,
        _merge_rects l distance horizontal_distance = Some out
        ∧ _merge_rects_obj rect_list distance horizontal_distance h
          = Some ((length h + k)%nat, <[rect_list := []]> h ++ replicate k [] ++ [out]))
  ∧ (∀ source_rects target_rects sources targets distance,
      h !! source_rects = Some sources →
      h !! target_rects = Some targets →
      source_rects ≠ target_rects →
      _adsorb_rects_to_rects_obj source_rects target_rects distance h
      = Some (length h, target_rects,
              <[target_rects := (_adsorb_rects_to_rects sources targets distance).2]> h
              ++ [(_adsorb_rects_to_rects sources targets distance).1])).
Proof.
  split.
  - intros p l distance horizontal_distance Hp.
    destruct (merge_rects_total distance horizontal_distance l) as (out & Hout & _).
    destruct (while_merged_refines _ _ _ _ _ _ _ Hp Hout) as (k & Hk).
    exists k, out. split; [done|].
    unfold _merge_rects_obj. rewrite Hp. done.
  - intros s t sources targets distance Hs Ht Hst.
    assert (s < length h)%nat as Hslt by (by eapply lookup_lt_Some).
    assert (t < length h)%nat as Htlt by (by eapply lookup_lt_Some).
    unfold _adsorb_rects_to_rects_obj, _adsorb_rects_to_rects. rewrite Hs, Ht. simpl.
    destruct (for_text_area_rect distance sources [] targets) as [acc' targets'] eqn:Hr.
    erewrite (for_text_area_rect_refines distance _ 0 s (length h) t (h ++ [[]])
                sources [] targets acc' targets');
      [|by apply lookup_app_l_Some|by apply lookup_app_l_Some
       |by rewrite lookup_app_r, Nat.sub_diag|done|lia|lia|lia|done].
    simpl. do 2 f_equal.
    rewrite insert_app_l by done.
    rewrite <- (length_insert h t targets') at 1.
    by rewrite <- (Nat.add_0_r (length (<[t:=targets']> h))), insert_app_r.
Qed.

End StoreFacts.

(** ** The scenarios *)

Section Scenarios.
Import Scenario.
#[local] Existing Instance ideal.

Lemma merge_drawings_10 :
  _merge_rects [left_drawing; right_drawing] (fl 10) None = Some [both_drawings].
Proof. vm_compute. reflexivity. Defined.

Lemma merge_drawings_4 :
  _merge_rects [left_drawing; right_drawing] (fl 4) None
  = Some [left_drawing; right_drawing].
Proof. vm_compute. reflexivity. Defined.

Lemma rule_text_horizontal_near : _is_horizontal_near rule text_block (fl 100) = true.
Proof. vm_compute. reflexivity. Qed.

Lemma rule_text_union : _union_rects rule text_block = rule_and_text.
Proof. vm_compute. reflexivity. Qed.

Lemma merge_rule_text distance :
  _merge_rects [rule; text_block] distance (Some (fl 100)) = Some [rule_and_text].
Proof.
  assert (merge_test distance (Some (fl 100)) rule text_block = true) as Ht.
  { unfold merge_test. rewrite rule_text_horizontal_near.
    replace (truthy (Some (fl 100))) with true by (by vm_compute).
    by rewrite orb_true_r. }
  unfold _merge_rects. cbn -[merge_test list_remove _union_rects]. rewrite Ht.
  assert (list_remove text_block [text_block] = Some []) as ->
    by (cbn [list_remove]; by case_decide).
  cbn -[merge_test list_remove _union_rects].
  by rewrite rule_text_union.
Qed.

Lemma figure_page_regions :
  _parse_rects figure_page = Some [Tuple4 (fl 0) (fl 0) (fl 100) (fl 100)].
Proof. vm_compute. reflexivity. Defined.

End Scenarios.

(** C4: scenarios A and B.  With distance 10 the two drawings, 5 apart,
    are merged into [(0, 0, 100, 50)]; with distance 4 they are returned as
    they are. *)
Theorem scenario_A_and_B :
  _merge_rects (H := ideal) [Scenario.left_drawing; Scenario.right_drawing] (fl 10) None
  = Some [Scenario.both_drawings]
  ∧ _merge_rects (H := ideal) [Scenario.left_drawing; Scenario.right_drawing] (fl 4) None
    = Some [Scenario.left_drawing; Scenario.right_drawing].
Proof. split; [apply merge_drawings_10|apply merge_drawings_4]. Qed.

(** C5: scenario C and the horizontal test.  With horizontal distance 100
    the line and the text block are merged into [(10, 100, 90, 140)],
    whatever the proximity distance, because they are horizontally near;
    and, for any geometry, [_is_horizontal_near a b d] holds exactly when
    one of the two is less than 0.1 high, the left edges and the right
    edges are less than 0.1 apart, and the top edges less than [d]. *)
Theorem scenario_C_and_horizontal_near :
  (∀ distance,
      _merge_rects (H := ideal) [Scenario.rule; Scenario.text_block] distance
        (Some (fl 100)) = Some [Scenario.rule_and_text])
  ∧ _is_horizontal_near (H := ideal) Scenario.rule Scenario.text_block (fl 100) = true
  ∧ ∀ (H : Shapely) (a b : BaseGeometry) (d : Qc),
      _is_horizontal_near a b d = true
      ↔ (Qcabs (y1 (bounds a) - y0 (bounds a)) < fl 0.1
         ∨ Qcabs (y1 (bounds b) - y0 (bounds b)) < fl 0.1)
        ∧ Qcabs (x0 (bounds a) - x0 (bounds b)) < fl 0.1
        ∧ Qcabs (x1 (bounds a) - x1 (bounds b)) < fl 0.1
        ∧ Qcabs (y1 (bounds a) - y1 (bounds b)) < d.
Proof.
  split_and!.
  - apply merge_rule_text.
  - apply rule_text_horizontal_near.
  - intros H a b d. unfold _is_horizontal_near.
    repeat case_bool_decide; simpl; intuition congruence.
Qed.

(** ** Where the specification and the code part *)

(** C7 as the specification words it fails on a block of two lines of five
    characters: the mean length of its lines is 5, which does not exceed 5,
    and the code has it large, because it counts the newline. *)
Lemma two_lines_of_five_is_large :
  split_lines (block_text Scenario.two_lines_of_five) = ["abcde"; "abcde"]%string
  ∧ spec_is_large_content Scenario.two_lines_of_five = false
  ∧ is_large_content Scenario.two_lines_of_five = true.
Proof. split_and!; vm_compute; reflexivity. Qed.

(** C8 as the specification words it fails: after the merger has run on
    the list object 0, that list is empty; after the adsorption pass has
    run on the sources at 0 and the targets at 1, the target list holds
    the union. *)
Lemma steps_are_not_side_effect_free :
  (let h := [[Scenario.left_drawing; Scenario.right_drawing]] in
   let h' := [[]; []; [Scenario.both_drawings]] in
   _merge_rects_obj (H := ideal) 0 (fl 10) None h = Some (2%nat, h')
   ∧ h' !! 0%nat ≠ h !! 0%nat)
  ∧ (let h := [[Scenario.right_drawing]; [Scenario.left_drawing]] in
     let h' := [[Scenario.right_drawing]; [Scenario.both_drawings]; []] in
     _adsorb_rects_to_rects_obj (H := ideal) 0 1 (fl 10) h = Some (2%nat, 1%nat, h')
     ∧ h' !! 1%nat ≠ h !! 1%nat).
Proof. split; (split; [vm_compute; reflexivity|discriminate]). Qed.

(** ** The theorems at work on the scenarios *)

(** The two drawings, which distance 4 leaves apart, are not near at 4. *)
Lemma merge_rects_idempotent_witness :
  (0 ≠ 1)%nat
  ∧ _is_near (H := ideal) Scenario.left_drawing Scenario.right_drawing (fl 4) = false.
Proof.
  split; [lia|].
  destruct (merge_rects_idempotent (H := ideal) (fl 4) None
              [Scenario.left_drawing; Scenario.right_drawing]) as (out & Hout & _ & Hapart).
  rewrite merge_drawings_4 in Hout. injection Hout as <-.
  apply (Hapart 0%nat 1%nat); [lia|reflexivity|reflexivity].
Defined.

(** The pass that merges the two drawings returns one rectangle. *)
Lemma merge_rects_terminates_witness :
  merge_pass (H := ideal) (fl 10) None 3
    [Scenario.left_drawing; Scenario.right_drawing]
  = Some ([Scenario.both_drawings], true)
  ∧ (length [Scenario.both_drawings]
     < length [Scenario.left_drawing; Scenario.right_drawing])%nat.
Proof.
  assert (merge_pass (H := ideal) (fl 10) None 3
            [Scenario.left_drawing; Scenario.right_drawing]
          = Some ([Scenario.both_drawings], true)) as Hpass
    by (vm_compute; reflexivity).
  split; [exact Hpass|].
  destruct (merge_rects_terminates (H := ideal) (fl 10) None
              [Scenario.left_drawing; Scenario.right_drawing]) as [_ Hshorter].
  exact (Hshorter _ _ _ Hpass).
Defined.

(** The right drawing as a source, the left one as the only target. *)
Lemma adsorb_rects_to_rects_conserves_witness :
  ∃ fates : list fate,
    [Scenario.left_drawing] !! 0%nat = Some Scenario.left_drawing
    ∧ (_adsorb_rects_to_rects (H := ideal) [Scenario.right_drawing]
         [Scenario.left_drawing] (fl 10)).2 !! 0%nat
      = Some (foldl (λ t s, _union_rects (H := ideal) s t) Scenario.left_drawing
                (fated (H := ideal) (Some 0%nat) [Scenario.right_drawing] fates)).
Proof.
  destruct (adsorb_rects_to_rects_conserves (H := ideal) (fl 10)
              [Scenario.right_drawing] [Scenario.left_drawing])
    as (fates & _ & _ & _ & _ & _ & _ & Htargets).
  exists fates. split; [reflexivity|]. apply Htargets. reflexivity.
Defined.

(** The line and the text block meet the four conditions. *)
Lemma scenario_C_and_horizontal_near_witness :
  _is_horizontal_near (H := ideal) Scenario.rule Scenario.text_block (fl 100) = true.
Proof.
  destruct scenario_C_and_horizontal_near as (_ & _ & Hiff).
  apply (Hiff ideal Scenario.rule Scenario.text_block (fl 100)).
  split_and!; [left|..]; vm_compute; reflexivity.
Defined.

(** The one region of the page with a figure is 100 wide and 100 high. *)
Lemma parse_rects_size_filter_witness :
  Tuple4 (fl 0) (fl 0) (fl 100) (fl 100) ∈ [Tuple4 (fl 0) (fl 0) (fl 100) (fl 100)]
  ∧ fl 20 < fl 100 - fl 0.
Proof.
  split; [left|].
  destruct (parse_rects_size_filter (H := ideal) Scenario.figure_page)
    as [(out & Hout & Hsize & _) _].
  rewrite figure_page_regions in Hout. injection Hout as <-.
  apply (Hsize (Tuple4 (fl 0) (fl 0) (fl 100) (fl 100))). left.
Defined.

(** A line of nine characters is large: 5 * 1 < 9. *)
Lemma text_block_classification_witness :
  (5 * 1 < 9)%nat
  ∧ is_large_content (Block Scenario.lone "some text") = true.
Proof.
  split; [lia|].
  destruct (text_block_classification (H := ideal) Scenario.text_page) as [Hlarge _].
  apply Hlarge. simpl. lia.
Defined.

(** The merger on a store whose only list holds the two drawings. *)
Lemma steps_change_their_list_arguments_witness :
  ∃ k out,
    _merge_rects (H := ideal) [Scenario.left_drawing; Scenario.right_drawing] (fl 10) None
    = Some out
    ∧ _merge_rects_obj (H := ideal) 0 (fl 10) None
        [[Scenario.left_drawing; Scenario.right_drawing]]
      = Some ((1 + k)%nat, [[]] ++ replicate k [] ++ [out]).
Proof.
  destruct (steps_change_their_list_arguments (H := ideal)
              [[Scenario.left_drawing; Scenario.right_drawing]]) as [Hmerge _].
  apply (Hmerge 0%nat). reflexivity.
Defined.

(** The page with text only has no region, and the caption of the page
    with a figure, which no target adsorbs, changes nothing. *)
Lemma parse_rects_discards_text_witness :
  (get_drawings Scenario.text_page = []
   ∧ get_image_info Scenario.text_page = []
   ∧ _parse_rects (H := ideal) Scenario.text_page = Some [])
  ∧ _parse_rects (H := ideal) (without_text Scenario.figure_page)
    = _parse_rects (H := ideal) Scenario.figure_page.
Proof.
  split.
  - do 2 (split; [reflexivity|]).
    destruct (parse_rects_discards_text (H := ideal) Scenario.text_page)
      as (out & Hout & _ & _ & Hempty & _).
    rewrite Hout. f_equal. apply Hempty; reflexivity.
  - destruct (parse_rects_discards_text (H := ideal) Scenario.figure_page)
      as (out & Hout & _ & _ & _ & Hleft).
    rewrite Hout.
    apply (Hleft [Ideal.Box (fl 0) (fl 0) (fl 100) (fl 100)]);
      vm_compute; reflexivity.
Defined.

(** * Further properties of the engine *)

(** ** The merger loses no rectangle *)

Section MergerCoverage.
Context `{Shapely}.
Variable distance : Qc.
Variable horizontal_distance : option Qc.

Lemma list_remove_elem_of_inv `{EqDecision A} (x y : A) (l l' : list A) :
  list_remove x l = Some l' → y ∈ l → y = x ∨ y ∈ l'.
Proof.
  revert l'. induction l as [|z l IH]; intros l' Hl Hy; [by apply elem_of_nil in Hy|].
  simpl in Hl. destruct (decide (z = x)) as [->|Hne].
  - simplify_eq. apply elem_of_cons in Hy as [->|Hy]; auto.
  - destruct (list_remove x l) as [l1|]; [|done]. simpl in Hl. simplify_eq.
    apply elem_of_cons in Hy as [->|Hy]; [right; left|].
    destruct (IH l1 eq_refl Hy) as [->|Hin]; [by left|right; by right].
Qed.

(** The rectangle the [for] loop returns contains the one it was given,
    and every rectangle it dropped from the work-list. *)
Lemma for_other_rect_covers fuel it rect l m rect' l' m' :
  for_other_rect distance horizontal_distance fuel it rect l m = Some (rect', l', m') →
  covers (bounds rect') (bounds rect)
  ∧ ∀ x, x ∈ l → x ∈ l' ∨ covers (bounds rect') (bounds x).
Proof.
  revert it rect l m. induction fuel as [|fuel IH]; intros it rect l m Hr; [done|].
  simpl in Hr. destruct (l !! it) as [other|] eqn:Hit.
  - destruct (merge_test _ _ rect other).
    + destruct (list_remove other l) as [l1|] eqn:Hl1; [|done]. simpl in Hr.
      apply IH in Hr as [Hrect Hl]. split.
      * eapply covers_trans; [done|apply union_rects_covers_l].
      * intros x Hx. destruct (list_remove_elem_of_inv _ _ _ _ Hl1 Hx) as [->|Hx1].
        -- right. eapply covers_trans; [done|apply union_rects_covers_r].
        -- by apply Hl.
    + by apply IH in Hr.
  - simplify_eq. split; [apply covers_refl|auto].
Qed.

Lemma while_rect_list_covers fuel l new m new' m' :
  while_rect_list distance horizontal_distance fuel l new m = Some (new', m') →
  ∀ x, x ∈ new ++ l → ∃ y, y ∈ new' ∧ covers (bounds y) (bounds x).
Proof.
  revert l new m. induction fuel as [|fuel IH]; intros l new m Hr x Hx; [done|].
  simpl in Hr. destruct l as [|rect l].
  - simplify_eq. rewrite app_nil_r in Hx. exists x. split; [done|apply covers_refl].
  - destruct (for_other_rect _ _ fuel 0 rect l m) as [[[rect1 l1] m1]|] eqn:Hfor; [|done].
    simpl in Hr. apply for_other_rect_covers in Hfor as [Hrect Hl].
    assert (rect1 ∈ (new ++ [rect1]) ++ l1) as Hrect1
      by (apply elem_of_app; left; apply elem_of_app; right; left).
    destruct (IH _ _ _ Hr rect1 Hrect1) as (y1 & Hy1 & Hc1).
    apply elem_of_app in Hx as [Hx|Hx].
    + apply (IH _ _ _ Hr). apply elem_of_app; left; apply elem_of_app; by left.
    + apply elem_of_cons in Hx as [->|Hx].
      * exists y1. split; [done|]. by eapply covers_trans.
      * destruct (Hl x Hx) as [Hx1|Hcx].
        -- apply (IH _ _ _ Hr). apply elem_of_app; by right.
        -- exists y1. split; [done|]. by eapply covers_trans.
Qed.

Lemma while_merged_covers fuel l out :
  while_merged distance horizontal_distance fuel l = Some out →
  ∀ x, x ∈ l → ∃ y, y ∈ out ∧ covers (bounds y) (bounds x).
Proof.
  revert l. induction fuel as [|fuel IH]; intros l Hr x Hx; [done|]. simpl in Hr.
  destruct (merge_pass _ _ fuel l) as [[new m]|] eqn:Hp; [|done]. simpl in Hr.
  destruct (while_rect_list_covers _ _ _ _ _ _ Hp x) as (y & Hy & Hc); [done|].
  destruct m.
  - destruct (IH _ Hr y Hy) as (z & Hz & Hcz). exists z. split; [done|].
    by eapply covers_trans.
  - simplify_eq. eauto.
Qed.

(** The merger returns; every rectangle it was given lies within one it
    returns, every rectangle it returns contains one it was given, and it
    returns no more rectangles than it was given. *)
Theorem merge_rects_loses_nothing (rect_list : list BaseGeometry) :
  ∃ out,
    _merge_rects rect_list distance horizontal_distance = Some out
    ∧ (∀ x, x ∈ rect_list → ∃ y, y ∈ out ∧ covers (bounds y) (bounds x))
    ∧ (∀ y, y ∈ out → ∃ x, x ∈ rect_list ∧ covers (bounds y) (bounds x))
    ∧ (length out ≤ length rect_list)%nat.
Proof.
  destruct (merge_rects_total distance horizontal_distance rect_list)
    as (out & Hout & _ & Hlen).
  exists out. split_and!; [done| | |done].
  - by eapply while_merged_covers.
  - apply Forall_forall.
    eapply (merge_rects_Forall distance horizontal_distance (derived rect_list));
      [|done|apply derived_self].
    intros a b Ha _. by apply derived_union.
Qed.

(** The lists the merger returns as they are are the settled ones: those
    in which no rectangle passes the merge test with a later one. *)
Theorem merge_rects_fixed_points (rect_list : list BaseGeometry) :
  _merge_rects rect_list distance horizontal_distance = Some rect_list
  ↔ settled distance horizontal_distance rect_list.
Proof.
  split; [|apply merge_rects_settled].
  intros Hr. destruct (merge_rects_total distance horizontal_distance rect_list)
    as (out & Hout & Hs & _).
  rewrite Hr in Hout. by simplify_eq.
Qed.

(** The merger stays within any box that contains its input. *)
Theorem merge_rects_within (region : Bounds) (rect_list out : list BaseGeometry) :
  _merge_rects rect_list distance horizontal_distance = Some out →
  (∀ x, x ∈ rect_list → covers region (bounds x)) →
  ∀ y, y ∈ out → covers region (bounds y).
Proof.
  intros Hr Hin. apply Forall_forall.
  eapply (merge_rects_Forall distance horizontal_distance
            (λ x, covers region (bounds x))); [|done|by apply Forall_forall].
  intros a b. apply within_union.
Qed.

End MergerCoverage.

(** ** More about the adsorption pass *)

Section AdsorptionMore.
Context `{Shapely}.
Variable distance : Qc.

Lemma for_text_area_rect_acc sources acc targets :
  for_text_area_rect distance sources acc targets
  = (acc ++ (for_text_area_rect distance sources [] targets).1,
     (for_text_area_rect distance sources [] targets).2).
Proof.
  revert acc targets. induction sources as [|s sources IH]; intros acc targets; simpl.
  - by rewrite app_nil_r.
  - destruct (for_index_rect distance s 0 targets targets) as [targets1 adsorbed].
    destruct adsorbed.
    + apply IH.
    + rewrite IH, (IH [s]). simpl. by rewrite <- app_assoc.
Qed.

(** Adsorbing a list of sources that is the concatenation of two is
    adsorbing the first, then the second into the targets the first left:
    the left-overs are those of the first followed by those of the
    second. *)
Theorem adsorb_rects_app (sources1 sources2 target_rects : list BaseGeometry) :
  _adsorb_rects_to_rects (sources1 ++ sources2) target_rects distance
  = let first := _adsorb_rects_to_rects sources1 target_rects distance in
    let second := _adsorb_rects_to_rects sources2 first.2 distance in
    (first.1 ++ second.1, second.2).
Proof.
  unfold _adsorb_rects_to_rects. simpl.
  revert target_rects. induction sources1 as [|s sources1 IH]; intros targets; simpl.
  - by destruct (for_text_area_rect distance sources2 [] targets).
  - destruct (for_index_rect distance s 0 targets targets) as [targets1 adsorbed].
    destruct adsorbed.
    + apply IH.
    + rewrite for_text_area_rect_acc, IH.
      rewrite (for_text_area_rect_acc sources1 [s]). simpl. done.
Qed.

Lemma foldl_union_covers (ss : list BaseGeometry) t :
  covers (bounds (foldl (λ t s, _union_rects s t) t ss)) (bounds t).
Proof.
  revert t. induction ss as [|s ss IH]; intros t; simpl; [apply covers_refl|].
  eapply covers_trans; [apply IH|apply union_rects_covers_r].
Qed.

Lemma foldl_union_covers_source (ss : list BaseGeometry) t s :
  s ∈ ss → covers (bounds (foldl (λ t s, _union_rects s t) t ss)) (bounds s).
Proof.
  revert t. induction ss as [|s' ss IH]; intros t Hs; [by apply elem_of_nil in Hs|].
  simpl. apply elem_of_cons in Hs as [->|Hs]; [|by apply IH].
  eapply covers_trans; [apply foldl_union_covers|apply union_rects_covers_l].
Qed.

Lemma fated_elem_of sources fates k s f :
  sources !! k = Some s → fates !! k = Some f → s ∈ fated f sources fates.
Proof.
  revert fates k. induction sources as [|s' sources IH]; intros [|g fates] [|k] Hs Hf;
    simplify_eq/=.
  - rewrite fated_cons. rewrite decide_True by done. left.
  - rewrite fated_cons. case_decide; [right|]; by eapply IH.
Qed.

(** The pass loses no rectangle either: every target lies within the
    target that is in its place in the end, and every source is among the
    left-overs or lies within a target of the end. *)
Theorem adsorb_rects_loses_nothing (source_rects target_rects : list BaseGeometry) :
  let new_source_rects := (_adsorb_rects_to_rects source_rects target_rects distance).1 in
  let target_rects' := (_adsorb_rects_to_rects source_rects target_rects distance).2 in
  (∀ j t, target_rects !! j = Some t →
     ∃ t', target_rects' !! j = Some t' ∧ covers (bounds t') (bounds t))
  ∧ (∀ s, s ∈ source_rects →
       s ∈ new_source_rects ∨ ∃ t', t' ∈ target_rects' ∧ covers (bounds t') (bounds s)).
Proof.
  unfold _adsorb_rects_to_rects.
  destruct (for_text_area_rect_spec distance source_rects [] target_rects)
    as (fates & Hads & Hleft).
  destruct (adsorption_length _ _ _ _ _ Hads) as [Hlen _].
  pose proof (λ j t, adsorption_targets _ _ _ _ _ j t Hads) as Htargets.
  simpl in *. split.
  - intros j t Hj. eexists. split; [by apply Htargets|]. apply foldl_union_covers.
  - intros s [k Hk]%list_elem_of_lookup.
    destruct (lookup_lt_is_Some_2 fates k) as [f Hf].
    { rewrite Hlen. by eapply lookup_lt_Some. }
    pose proof (fated_elem_of _ _ _ _ _ Hk Hf) as Hin.
    destruct f as [j|]; [right|left; by rewrite Hleft].
    destruct (lookup_lt_is_Some_2 target_rects j) as [t Hj].
    { by eapply adsorption_fates. }
    eexists. split; [eapply list_elem_of_lookup_2; by apply Htargets|].
    by apply foldl_union_covers_source.
Qed.

(** Without targets every source is left over, in order; without sources
    the targets are returned as they are. *)
Theorem adsorb_rects_nothing_to_do (rects : list BaseGeometry) :
  _adsorb_rects_to_rects rects [] distance = (rects, [])
  ∧ _adsorb_rects_to_rects [] rects distance = ([], rects).
Proof.
  split; [|done]. unfold _adsorb_rects_to_rects.
  induction rects as [|s rects IH]; [done|]. simpl.
  by rewrite for_text_area_rect_acc, IH.
Qed.

End AdsorptionMore.

(** ** More about the merge test *)

Section MergeTestMore.
Context `{Shapely}.

(** The merge test does not depend on the order of the two rectangles. *)
Theorem merge_test_symmetric (distance : Qc) (horizontal_distance : option Qc)
    (a b : BaseGeometry) :
  merge_test distance horizontal_distance a b
  = merge_test distance horizontal_distance b a.
Proof.
  unfold merge_test. rewrite is_near_sym.
  destruct horizontal_distance; [|done]. by rewrite is_horizontal_near_sym.
Qed.

Lemma is_horizontal_near_nonpositive a b d : d ≤ 0 → _is_horizontal_near a b d = false.
Proof.
  intros Hd. unfold _is_horizontal_near.
  rewrite (bool_decide_eq_false_2 (Qcabs _ < d)); [by repeat case_match|].
  apply Qcle_not_lt. etrans; [done|apply Qcabs_nonneg].
Qed.

Lemma merge_test_nonpositive distance h a b :
  h ≤ 0 → merge_test distance (Some h) a b = merge_test distance None a b.
Proof.
  intros Hh. unfold merge_test.
  by rewrite is_horizontal_near_nonpositive, andb_false_r.
Qed.

Section SameTest.
Variables (distance : Qc) (hd hd' : option Qc).
Hypothesis same : ∀ a b, merge_test distance hd a b = merge_test distance hd' a b.

Lemma for_other_rect_same fuel it rect l m :
  for_other_rect distance hd fuel it rect l m
  = for_other_rect distance hd' fuel it rect l m.
Proof.
  revert it rect l m. induction fuel as [|fuel IH]; intros it rect l m; [done|].
  simpl. destruct (l !! it) as [other|]; [|done]. rewrite same.
  destruct (merge_test distance hd' rect other); [|apply IH].
  destruct (list_remove other l); [|done]. simpl. apply IH.
Qed.

Lemma while_rect_list_same fuel l new m :
  while_rect_list distance hd fuel l new m = while_rect_list distance hd' fuel l new m.
Proof.
  revert l new m. induction fuel as [|fuel IH]; intros l new m; [done|].
  simpl. destruct l as [|rect l]; [done|]. rewrite for_other_rect_same.
  destruct (for_other_rect distance hd' fuel 0 rect l m) as [[[rect1 l1] m1]|]; [|done].
  simpl. apply IH.
Qed.

Lemma while_merged_same fuel l :
  while_merged distance hd fuel l = while_merged distance hd' fuel l.
Proof.
  revert l. induction fuel as [|fuel IH]; intros l; [done|].
  simpl. unfold merge_pass. rewrite while_rect_list_same.
  destruct (while_rect_list distance hd' fuel l [] false) as [[new m]|]; [|done].
  simpl. destruct m; [apply IH|done].
Qed.

End SameTest.

(** A horizontal distance that is zero or negative is as good as none: the
    merger returns what it returns without it. *)
Theorem merge_rects_horizontal_distance_off (rect_list : list BaseGeometry)
    (distance h : Qc) :
  h ≤ 0 →
  _merge_rects rect_list distance (Some h) = _merge_rects rect_list distance None.
Proof.
  intros Hh. unfold _merge_rects. apply while_merged_same.
  intros a b. by apply merge_test_nonpositive.
Qed.

End MergeTestMore.

(** ** More about the page segmenter *)

Section SegmenterMore.
Context `{Shapely}.

Lemma settled_cons distance hd (x : BaseGeometry) l :
  settled distance hd (x :: l)
  ↔ (∀ y, y ∈ l → merge_test distance hd x y = false) ∧ settled distance hd l.
Proof.
  split.
  - intros Hs. split.
    + intros y [j Hj]%list_elem_of_lookup. apply (Hs 0%nat (S j)); [lia|done..].
    + intros i j a b Hij Ha Hb. apply (Hs (S i) (S j)); [lia|done..].
  - intros [Hx Hl] i j a b Hij Ha Hb. destruct j as [|j]; [lia|]. simpl in Hb.
    destruct i as [|i]; simpl in Ha.
    + simplify_eq. apply Hx. by eapply list_elem_of_lookup_2.
    + apply (Hl i j); [lia|done..].
Qed.

Lemma settled_filter distance hd (P : BaseGeometry → Prop) `{∀ x, Decision (P x)} l :
  settled distance hd l → settled distance hd (filter P l).
Proof.
  induction l as [|x l IH]; [done|]. intros [Hx Hl]%settled_cons.
  rewrite filter_cons. case_decide; [|by apply IH].
  apply settled_cons. split; [|by apply IH].
  intros y [_ Hy]%list_elem_of_filter. by apply Hx.
Qed.

Lemma settled_no_horizontal_apart distance l i j a b :
  settled distance None l → i ≠ j → l !! i = Some a → l !! j = Some b →
  _is_near a b distance = false.
Proof.
  intros Hs Hij Ha Hb.
  assert (∀ i j a b, (i < j)%nat → l !! i = Some a → l !! j = Some b →
                     _is_near a b distance = false) as Hlt.
  { intros i' j' a' b' Hlt Ha' Hb'. specialize (Hs i' j' a' b' Hlt Ha' Hb').
    unfold merge_test in Hs. by rewrite orb_false_r in Hs. }
  destruct (decide (i < j)%nat); [by apply (Hlt i j)|].
  rewrite is_near_sym. apply (Hlt j i); [lia|done..].
Qed.

(** The regions the segmenter returns are the bounds of rectangles no two
    of which are near each other at distance 10. *)
Theorem parse_rects_regions_apart (page : Page) :
  ∃ regions : list BaseGeometry,
    _parse_rects page = Some (bounds <$> regions)
    ∧ ∀ i j a b, i ≠ j → regions !! i = Some a → regions !! j = Some b →
        _is_near a b (fl 10) = false.
Proof.
  destruct (parse_rects_total page) as (merged1 & merged2 & _ & H2 & ->).
  eexists. split; [done|]. intros i j a b.
  apply settled_no_horizontal_apart, settled_filter.
  destruct (merge_rects_total (fl 10) None (adsorbed_targets page merged1))
    as (out & Hout & Hs & _).
  rewrite H2 in Hout. by simplify_eq.
Qed.

(** A drawing less than 1 high and less than 30 wide has no part in the
    result: the page without it has the same regions. *)
Theorem parse_rects_ignores_short_lines (line : Bounds) (before after images : list Bounds)
    (blocks : list TextBlock) :
  Qcabs (y1 line - y0 line) < fl 1 → Qcabs (x1 line - x0 line) < fl 30 →
  _parse_rects {| get_drawings := before ++ line :: after;
                  get_image_info := images; get_text_blocks := blocks |}
  = _parse_rects {| get_drawings := before ++ after;
                    get_image_info := images; get_text_blocks := blocks |}.
Proof.
  intros Hh Hw.
  assert (is_short_line line = true) as Hshort.
  { unfold is_short_line. by rewrite !bool_decide_eq_true_2. }
  unfold _parse_rects, pool, small_text_area_rects, large_text_area_rects. simpl.
  rewrite !filter_app, filter_cons. rewrite decide_False; [done|].
  rewrite Hshort. by intros [].
Qed.

(** The regions lie within any box that contains the boxes of the
    drawings, the images and the text blocks of the page. *)
Theorem parse_rects_within (region : Bounds) (page : Page) :
  (∀ r, r ∈ get_drawings page ∨ r ∈ get_image_info page →
        covers region (bounds (box_of r))) →
  (∀ x, x ∈ get_text_blocks page → covers region (bounds (box_of (block_bbox x)))) →
  ∃ out, _parse_rects page = Some out ∧ ∀ b, b ∈ out → covers region b.
Proof.
  intros Hpool Htext.
  destruct (parse_rects_Forall (λ x, covers region (bounds x)) page)
    as (merged_rects & Hp & Hin).
  - intros a b. apply within_union.
  - apply Forall_forall. intros y (r & Hr & ->)%pool_elem_of. by apply Hpool.
  - apply Forall_forall. intros y (x & Hx & ->)%text_area_rects_elem_of. by apply Htext.
  - eexists. split; [done|]. intros b (x & -> & Hx)%list_elem_of_fmap.
    rewrite Forall_forall in Hin. by apply Hin.
Qed.

End SegmenterMore.

(** ** The names of the image files *)

Section Names.

Definition is_digit (c : ascii) : bool :=
  (48 <=? nat_of_ascii c)%nat && (nat_of_ascii c <=? 57)%nat.

Fixpoint all_digits (s : string) : bool :=
  match s with
  | EmptyString => true
  | String c s => is_digit c && all_digits s
  end.

Lemma pretty_N_char_digit x : is_digit (pretty_N_char x) = true.
Proof. unfold pretty_N_char. by repeat case_match. Qed.

Lemma pretty_N_go_digits x s :
  all_digits s = true → all_digits (pretty_N_go x s) = true.
Proof.
  revert s. induction (N.lt_wf_0 x) as [x _ IH]; intros s Hs.
  assert (x = 0 ∨ 0 < x)%N as [->|Hx] by lia; [by rewrite pretty_N_go_0|].
  rewrite pretty_N_go_step by done. apply IH; [by apply N.div_lt|].
  simpl. by rewrite pretty_N_char_digit.
Qed.

Lemma pretty_N_go_nonempty x s : s ≠ EmptyString → pretty_N_go x s ≠ EmptyString.
Proof.
  revert s. induction (N.lt_wf_0 x) as [x _ IH]; intros s Hs.
  assert (x = 0 ∨ 0 < x)%N as [->|Hx] by lia; [by rewrite pretty_N_go_0|].
  rewrite pretty_N_go_step by done. by apply IH; [apply N.div_lt|].
Qed.

Lemma pretty_nat_digits (n : nat) : all_digits (pretty n) = true ∧ pretty n ≠ EmptyString.
Proof.
  unfold pretty, pretty_nat, pretty, pretty_N. case_decide; [done|]. split.
  - by apply pretty_N_go_digits.
  - assert (0 < N.of_nat n)%N as Hn by lia.
    rewrite pretty_N_go_step by done. by apply pretty_N_go_nonempty.
Qed.

(** A string of digits followed by a character that is no digit: the
    digits, the character and the rest are determined. *)
Lemma digits_prefix_inj s1 s2 c1 c2 t1 t2 :
  all_digits s1 = true → all_digits s2 = true →
  is_digit c1 = false → is_digit c2 = false →
  s1 +:+ String c1 t1 = s2 +:+ String c2 t2 → s1 = s2 ∧ c1 = c2 ∧ t1 = t2.
Proof.
  revert s2. induction s1 as [|a s1 IH]; intros [|b s2] H1 H2 Hc1 Hc2 Heq;
    simpl in *; simplify_eq.
  - done.
  - apply andb_prop in H2 as [Hb _]. congruence.
  - apply andb_prop in H1 as [Ha _]. congruence.
  - apply andb_prop in H1 as [_ H1]. apply andb_prop in H2 as [_ H2].
    destruct (IH s2 H1 H2 Hc1 Hc2) as (-> & -> & ->); done.
Qed.

Lemma rect_image_name_inj i k i' k' :
  rect_image_name i k = rect_image_name i' k' → i = i' ∧ k = k'.
Proof.
  unfold rect_image_name. simpl. intros Heq.
  destruct (pretty_nat_digits i) as [Hi _]. destruct (pretty_nat_digits i') as [Hi' _].
  destruct (pretty_nat_digits k) as [Hk _]. destruct (pretty_nat_digits k') as [Hk' _].
  apply digits_prefix_inj in Heq as (Hii & _ & Heq); [|done..].
  apply digits_prefix_inj in Heq as (Hkk & _ & _); [|done..].
  split; by apply (inj pretty).
Qed.

Lemma page_image_name_inj i i' : page_image_name i = page_image_name i' → i = i'.
Proof.
  unfold page_image_name. simpl. intros Heq.
  destruct (pretty_nat_digits i) as [Hi _]. destruct (pretty_nat_digits i') as [Hi' _].
  apply digits_prefix_inj in Heq as (Hii & _ & _); [|done..]. by apply (inj pretty).
Qed.

Lemma rect_image_name_not_page i k i' : rect_image_name i k ≠ page_image_name i'.
Proof.
  unfold rect_image_name, page_image_name. simpl. intros Heq.
  destruct (pretty_nat_digits i) as [Hi _]. destruct (pretty_nat_digits i') as [Hi' _].
  by apply digits_prefix_inj in Heq as (_ & ? & _).
Qed.

Lemma starts_with_sep_pretty (n : nat) s : starts_with_sep (pretty n +:+ s) = false.
Proof.
  destruct (pretty_nat_digits n) as [Hd Hne].
  destruct (pretty n) as [|c p]; [done|]. simpl in *.
  apply andb_prop in Hd as [Hc _]. apply bool_decide_eq_false. by intros ->.
Qed.

(** Joined to one directory, two names that do not start with a slash give
    two paths. *)
Lemma path_join_inj output_dir name name' :
  starts_with_sep name = false → starts_with_sep name' = false →
  path_join output_dir name = path_join output_dir name' → name = name'.
Proof.
  unfold path_join. intros -> ->.
  destruct (bool_decide (output_dir = EmptyString) || ends_with_sep output_dir).
  - apply (inj _).
  - intros Heq. apply (inj (String.app output_dir)) in Heq. simpl in Heq. by simplify_eq.
Qed.

End Names.

(** ** The files [_parse_pdf_to_images] writes *)

Section CroppingFacts.
Context `{Shapely}.
Implicit Types (files : gmap string Pixmap) (rects : list Bounds).

Lemma rect_path_inj output_dir i k i' k' :
  path_join output_dir (rect_image_name i k) = path_join output_dir (rect_image_name i' k') →
  i = i' ∧ k = k'.
Proof.
  intros Heq. apply rect_image_name_inj.
  eapply path_join_inj; [apply starts_with_sep_pretty..|done].
Qed.

Lemma page_path_inj output_dir i i' :
  path_join output_dir (page_image_name i) = path_join output_dir (page_image_name i') →
  i = i'.
Proof.
  intros Heq. apply page_image_name_inj.
  eapply path_join_inj; [apply starts_with_sep_pretty..|done].
Qed.

Lemma rect_path_not_page output_dir i k i' :
  path_join output_dir (rect_image_name i k) ≠ path_join output_dir (page_image_name i').
Proof.
  intros Heq. apply (rect_image_name_not_page i k i').
  eapply path_join_inj; [apply starts_with_sep_pretty..|done].
Qed.

(** The loop over the regions of a page: what it draws, the names it
    collects, the crops it saves, and the files it leaves alone. *)
Lemma for_index_rect_image_spec page output_dir i index rects drawn names files :
  let r := for_index_rect_image page output_dir i index rects drawn names files in
  r.1.1 = drawn ++ annotations i index rects
  ∧ r.1.2 = names ++ (rect_image_name i <$> seq index (length rects))
  ∧ (∀ k rect, rects !! k = Some rect →
       r.2 !! path_join output_dir (rect_image_name i (index + k))
       = Some (get_pixmap page (drawn ++ annotations i index (take k rects))
                 (Some rect) (4, 4)%nat))
  ∧ (∀ path,
       (∀ k, (k < length rects)%nat →
             path ≠ path_join output_dir (rect_image_name i (index + k))) →
       r.2 !! path = files !! path).
Proof.
  revert index drawn names files.
  induction rects as [|rect rects IH]; intros index drawn names files; simpl.
  - rewrite !app_nil_r. split_and!; done.
  - edestruct IH as (Hd & Hn & Hsaved & Hkept). split_and!.
    + rewrite Hd. by rewrite <- !app_assoc.
    + rewrite Hn. by rewrite <- app_assoc.
    + intros [|k] rect' Hk; simpl in Hk.
      * simplify_eq. rewrite Hkept.
        -- rewrite Nat.add_0_r, lookup_insert_eq. by rewrite app_nil_r.
        -- intros k _ Heq. apply rect_path_inj in Heq as [_ Heq]. lia.
      * replace (index + S k)%nat with (S index + k)%nat by lia.
        rewrite (Hsaved k rect' Hk). simpl. by rewrite <- !app_assoc.
    + intros path Hpath. rewrite Hkept.
      * apply lookup_insert_ne. intros <-. apply (Hpath 0%nat); [lia|].
        by rewrite Nat.add_0_r.
      * intros k Hk. replace (S index + k)%nat with (index + S k)%nat by lia.
        apply Hpath. lia.
Qed.

(** The entry of the result for the page of index [i] with regions
    [rects]. *)
Definition image_info (output_dir : string) (i : nat) (rects : list Bounds)
  : string * list string :=
  (path_join output_dir (page_image_name i),
   rect_image_name i <$> seq 0 (length rects)).

Lemma for_page_index_page_spec output_dir start pages image_infos files :
  ∃ regions files',
    Forall2 (λ page rects, _parse_rects page = Some rects) pages regions
    ∧ for_page_index_page output_dir start pages image_infos files
      = Some (image_infos ++ imap (λ p, image_info output_dir (start + p)) regions, files')
    ∧ (∀ p page rects, pages !! p = Some page → regions !! p = Some rects →
         files' !! path_join output_dir (page_image_name (start + p))
         = Some (get_pixmap page (annotations (start + p) 0 rects) None (3, 3)%nat)
         ∧ ∀ k rect, rects !! k = Some rect →
             files' !! path_join output_dir (rect_image_name (start + p) k)
             = Some (get_pixmap page (annotations (start + p) 0 (take k rects))
                       (Some rect) (4, 4)%nat))
    ∧ (∀ path,
         (∀ p rects, regions !! p = Some rects →
            path ≠ path_join output_dir (page_image_name (start + p))
            ∧ ∀ k, (k < length rects)%nat →
                path ≠ path_join output_dir (rect_image_name (start + p) k)) →
         files' !! path = files !! path).
Proof.
  revert start image_infos files.
  induction pages as [|page pages IH]; intros start image_infos files.
  - exists [], files. simpl. rewrite app_nil_r. split_and!; try done.
  - destruct (parse_rects_total page) as (m1 & m2 & _ & _ & Hrects).
    set (rects := bounds <$> filter (λ rect, big_enough (bounds rect)) m2) in *.
    simpl. rewrite Hrects. simpl.
    destruct (for_index_rect_image_spec page output_dir start 0 rects [] [] files)
      as (Hd & Hn & Hsaved & Hkept).
    destruct (for_index_rect_image page output_dir start 0 rects [] [] files)
      as [[drawn names] files1]. simpl in Hd, Hn, Hsaved, Hkept. subst drawn names.
    edestruct (IH (S start)) as (regions & files' & Hall & -> & Hpages & Hother).
    exists (rects :: regions), files'. split_and!.
    + by constructor.
    + f_equal. f_equal. rewrite <- app_assoc. f_equal. simpl.
      rewrite Nat.add_0_r. f_equal. apply imap_ext. intros p r _. simpl.
      by replace (start + S p)%nat with (S start + p)%nat by lia.
    + intros [|p] page' rects' Hp Hr; simpl in Hp, Hr.
      * simplify_eq. rewrite Nat.add_0_r. split.
        -- rewrite Hother; [by rewrite lookup_insert_eq|].
           intros p r _. split.
           ++ intros Heq%page_path_inj. lia.
           ++ intros k _ Heq. symmetry in Heq. by apply rect_path_not_page in Heq.
        -- intros k rect Hk. rewrite Hother.
           ++ rewrite lookup_insert_ne
                by (intros Heq; symmetry in Heq; by apply rect_path_not_page in Heq).
              by apply (Hsaved k rect).
           ++ intros p r _. split.
              ** apply rect_path_not_page.
              ** intros k' _ [Heq _]%rect_path_inj. lia.
      * replace (start + S p)%nat with (S start + p)%nat by lia. by apply Hpages.
    + intros path Hpath. rewrite Hother.
      * destruct (Hpath 0%nat rects eq_refl) as [Hpage Hcrops].
        rewrite Nat.add_0_r in Hpage, Hcrops.
        rewrite lookup_insert_ne by done. by apply Hkept.
      * intros p r Hr. replace (S start + p)%nat with (start + S p)%nat by lia.
        by apply Hpath.
Qed.

(** [_parse_pdf_to_images] returns one entry per page, in the order of the
    pages: the path of the image of the page in [output_dir], and the names
    of the crops of its regions, one per region of [_parse_rects], numbered
    from 0. *)
Theorem parse_pdf_to_images_returns (pdf_document : list Page) (output_dir : string)
    (files : gmap string Pixmap) :
  ∃ regions files',
    Forall2 (λ page rects, _parse_rects page = Some rects) pdf_document regions
    ∧ _parse_pdf_to_images pdf_document output_dir files
      = Some (imap (λ page_index rects,
                      (path_join output_dir (page_image_name page_index),
                       rect_image_name page_index <$> seq 0 (length rects)))
                regions, files').
Proof.
  destruct (for_page_index_page_spec output_dir 0 pdf_document [] files)
    as (regions & files' & Hall & Hr & _).
  exists regions, files'. split; [done|]. unfold _parse_pdf_to_images. by rewrite Hr.
Qed.

(** No file is written twice.  In the end the path of the image of a page
    holds the page with the outlines and labels of all its regions, at zoom
    3; the path of the crop of its region [k] holds the page clipped to that
    region at zoom 4, as it was when the regions before [k] had been
    outlined and labelled and no other; and every other path holds what it
    held. *)
Theorem parse_pdf_to_images_files (pdf_document : list Page) (output_dir : string)
    (files : gmap string Pixmap) :
  ∃ image_infos files',
    _parse_pdf_to_images pdf_document output_dir files = Some (image_infos, files')
    ∧ (∀ page_index page rects,
         pdf_document !! page_index = Some page → _parse_rects page = Some rects →
         files' !! path_join output_dir (page_image_name page_index)
         = Some (get_pixmap page (annotations page_index 0 rects) None (3, 3)%nat)
         ∧ ∀ index rect, rects !! index = Some rect →
             files' !! path_join output_dir (rect_image_name page_index index)
             = Some (get_pixmap page (annotations page_index 0 (take index rects))
                       (Some rect) (4, 4)%nat))
    ∧ (∀ path,
         (∀ page_index page rects,
            pdf_document !! page_index = Some page → _parse_rects page = Some rects →
            path ≠ path_join output_dir (page_image_name page_index)
            ∧ ∀ index, (index < length rects)%nat →
                path ≠ path_join output_dir (rect_image_name page_index index)) →
         files' !! path = files !! path).
Proof.
  destruct (for_page_index_page_spec output_dir 0 pdf_document [] files)
    as (regions & files' & Hall & Hr & Hpages & Hother).
  eexists _, files'. split; [done|]. split.
  - intros i page rects Hi Hrects.
    destruct (Forall2_lookup_l _ _ _ _ _ Hall Hi) as (rects' & Hi' & Hrects').
    rewrite Hrects in Hrects'. simplify_eq. by apply (Hpages i page rects').
  - intros path Hpath. apply Hother. intros p rects Hp.
    destruct (Forall2_lookup_r _ _ _ _ _ Hall Hp) as (page & Hpage & Hrects).
    by apply (Hpath p page rects).
Qed.

End CroppingFacts.

(** ** The regions in exact geometry *)

Section RegionsApart.
Import Ideal.
#[local] Existing Instance ideal.

Definition is_box (g : shape) : Prop := ∃ a b c d, g = Box a b c d.

Lemma is_near_boxes (g h : shape) d :
  is_box g → is_box h →
  _is_near g h d
  = part_distance_lt (shape_bounds g, 0 + Qc_max 0 (fl 0.1))
      (shape_bounds h, 0 + Qc_max 0 (fl 0.1)) d.
Proof.
  intros (a & b & c & e & ->) (a' & b' & c' & e' & ->).
  unfold _is_near. simpl. unfold shape_distance_lt. simpl.
  by rewrite !orb_false_r.
Qed.

(** What [_parse_rects] returns, with the rectangles behind the bounds. *)
Lemma parse_rects_regions `{Shapely} (page : Page) :
  ∃ regions : list BaseGeometry,
    _parse_rects page = Some (bounds <$> regions)
    ∧ settled (fl 10) None regions
    ∧ ∀ P : BaseGeometry → Prop,
        (∀ a b, P a → P b → P (_union_rects a b)) →
        Forall P (pool page) →
        Forall P (large_text_area_rects page ++ small_text_area_rects page) →
        Forall P regions.
Proof.
  destruct (parse_rects_total page) as (merged1 & merged2 & H1 & H2 & ->).
  eexists. split; [done|]. split.
  - apply settled_filter.
    destruct (merge_rects_total (fl 10) None (adsorbed_targets page merged1))
      as (out & Hout & Hs & _).
    rewrite H2 in Hout. by simplify_eq.
  - intros P HP Hpool [Hlarge Hsmall]%Forall_app.
    apply Forall_forall. intros x [_ Hx]%list_elem_of_filter.
    revert x Hx. apply Forall_forall.
    eapply merge_rects_Forall; [done..|]. unfold adsorbed_targets.
    eapply adsorb_rects_Forall; [done..|].
    eapply adsorb_rects_Forall; [done..|].
    apply Forall_forall. intros x [_ Hx]%list_elem_of_filter. revert x Hx.
    apply Forall_forall. by eapply merge_rects_Forall.
Qed.

Lemma far_apart_outline (gx gy : Q) :
  (0 <= gx)%Q → (0 <= gy)%Q →
  ¬ (gx * gx + gy * gy < (10 + (1 # 5)) * (10 + (1 # 5)))%Q →
  (1 < gx)%Q ∨ (1 < gy)%Q.
Proof.
  intros Hx Hy Hfar.
  destruct (Qlt_le_dec 1 gx) as [|Hgx]; [by left|].
  destruct (Qlt_le_dec 1 gy) as [|Hgy]; [by right|].
  exfalso. apply Hfar. nra.
Qed.

Lemma buffer_radius : 0 + Qc_max 0 (fl 0.1) = fl 0.1.
Proof. apply Qc_is_canon. by vm_compute. Qed.

Lemma gap_nonneg lo1 hi1 lo2 hi2 : 0 ≤ gap lo1 hi1 lo2 hi2.
Proof. unfold gap. qc_order. Qed.

Lemma gap_more_than_1 lo1 hi1 lo2 hi2 :
  fl 1 < gap lo1 hi1 lo2 hi2 → hi1 + fl 1 < lo2 ∨ hi2 < lo1 - fl 1.
Proof.
  unfold gap. intros Hg.
  assert (fl 1 < lo2 - hi1 ∨ fl 1 < lo1 - hi2) as [Hl|Hl].
  { revert Hg. unfold Qc_max. repeat case_decide; auto; intros Hg; by vm_compute in Hg. }
  - left. revert Hl. unfold fl, Qcminus, Qcplus, Qcopp, Qclt. simpl.
    rewrite !Qred_correct. intros. lra.
  - right. revert Hl. unfold fl, Qcminus, Qcplus, Qcopp, Qclt. simpl.
    rewrite !Qred_correct. intros. lra.
Qed.

Lemma far_apart_Qc (gx gy : Qc) :
  0 ≤ gx → 0 ≤ gy →
  ¬ (gx * gx + gy * gy < (fl 10 + (fl 0.1 + fl 0.1)) * (fl 10 + (fl 0.1 + fl 0.1))) →
  fl 1 < gx ∨ fl 1 < gy.
Proof.
  intros Hx Hy Hfar.
  destruct (far_apart_outline gx gy) as [H1|H1].
  - exact Hx.
  - exact Hy.
  - intros Hlt. apply Hfar. unfold Qclt, Qcplus, Qcmult, fl. simpl.
    rewrite !Qred_correct. lra.
  - left. exact H1.
  - right. exact H1.
Qed.

Lemma not_near_at_10 (g h : shape) :
  is_box g → is_box h → _is_near (H := ideal) g h (fl 10) = false →
  (x1 (shape_bounds g) + fl 1 < x0 (shape_bounds h)
   ∨ x1 (shape_bounds h) < x0 (shape_bounds g) - fl 1)
  ∨ (y1 (shape_bounds g) + fl 1 < y0 (shape_bounds h)
     ∨ y1 (shape_bounds h) < y0 (shape_bounds g) - fl 1).
Proof.
  intros Hg Hh. rewrite is_near_boxes by done. rewrite buffer_radius.
  unfold part_distance_lt. cbn [fst snd].
  rewrite bool_decide_eq_true_2 by (by vm_compute). rewrite andb_true_l.
  intros Hfar%bool_decide_eq_false.
  set (a := shape_bounds g) in *. set (b := shape_bounds h) in *.
  destruct (far_apart_Qc (gap (x0 a) (x1 a) (x0 b) (x1 b))
              (gap (y0 a) (y1 a) (y0 b) (y1 b))) as [Hx|Hy].
  - apply gap_nonneg.
  - apply gap_nonneg.
  - exact Hfar.
  - left. by apply gap_more_than_1.
  - right. by apply gap_more_than_1.
Qed.

(** In exact geometry, the outline drawn around a region, one unit beyond
    it on every side, stays clear of every other region of the page: the
    two are apart along the x axis or along the y axis. *)
Theorem regions_outlines_clear (page : Page) :
  ∃ out,
    _parse_rects (H := ideal) page = Some out
    ∧ ∀ i j a b, i ≠ j → out !! i = Some a → out !! j = Some b →
        (x1 (big_fitz_rect a) < x0 b ∨ x1 b < x0 (big_fitz_rect a))
        ∨ (y1 (big_fitz_rect a) < y0 b ∨ y1 b < y0 (big_fitz_rect a)).
Proof.
  destruct (parse_rects_regions (H := ideal) page) as (regions & Hout & Hs & Hall).
  eexists. split; [done|]. intros i j a b Hij Ha Hb.
  apply list_lookup_fmap_Some in Ha as (g & -> & Hg).
  apply list_lookup_fmap_Some in Hb as (h & -> & Hh).
  assert (Forall is_box regions) as Hbox.
  { apply Hall.
    - intros x y _ _. unfold _union_rects, box_of. simpl. by eexists _, _, _, _.
    - apply Forall_forall. intros y (r & _ & ->)%pool_elem_of. by eexists _, _, _, _.
    - apply Forall_forall. intros y (x & _ & ->)%text_area_rects_elem_of.
      by eexists _, _, _, _. }
  rewrite Forall_lookup in Hbox.
  apply (not_near_at_10 g h); [by eapply Hbox|by eapply Hbox|].
  by eapply (settled_no_horizontal_apart (H := ideal)).
Qed.

End RegionsApart.

(** ** The command line *)

Section CliFacts.
Import Cli.
Variable Yaml : Type.
Variable safe_load : string → option Yaml.

(** The API key is the one of the command line when there is one that is
    not empty, else the value of the environment variable, else its value
    in the [.env] file; [main] raises [ValueError] exactly when there is
    none of the three, whatever the prompt file; and the key it passes to
    [parse_pdf] is that one. *)
Theorem main_api_key (cl : CommandLine) (environ dotenv files : gmap string string) :
  let name := default "OPENAI_API_KEY"%string (cl_api_key_env cl) in
  let from_environment :=
    match environ !! name with
    | Some value => Some value
    | None => dotenv !! name
    end in
  let key :=
    match cl_api_key cl with
    | Some k => if decide (k = EmptyString) then from_environment else Some k
    | None => from_environment
    end in
  resolve_api_key (parse_args cl) (load_dotenv environ dotenv) = key
  ∧ ((∃ message, main Yaml safe_load cl environ dotenv files = raise_ValueError Yaml message)
     ↔ key = None)
  ∧ ∀ stdout kwargs,
      main Yaml safe_load cl environ dotenv files = call_parse_pdf Yaml stdout kwargs →
      key = Some (kw_api_key Yaml kwargs).
Proof.
  intros name from_environment key.
  assert (resolve_api_key (parse_args cl) (load_dotenv environ dotenv) = key) as Hkey.
  { unfold resolve_api_key, load_dotenv, key, from_environment, name. simpl.
    assert (∀ n, (environ ∪ dotenv) !! n
                 = match environ !! n with Some v => Some v | None => dotenv !! n end)
      as Hunion.
    { intros n. rewrite lookup_union. by destruct (environ !! n), (dotenv !! n). }
    destruct (cl_api_key cl) as [k|]; simpl; [|apply Hunion].
    case_bool_decide; case_decide; try done; try apply Hunion. }
  split; [done|]. unfold main. rewrite Hkey. split.
  - destruct key as [k|].
    + split; [|done]. intros [message Hm]. exfalso. revert Hm. unfold print_and_call.
      repeat case_match; discriminate.
    + split; [done|]. eauto.
  - intros stdout kwargs. destruct key as [k|]; [|done]. unfold print_and_call.
    repeat case_match; intros Hc; simplify_eq; done.
Qed.

Lemma extra_args_of_lookup (args : Namespace) (name : string) :
  extra_args_of args !! name
  = if decide (name = "max_tokens"%string) then
      match max_tokens args with
      | Some n => if decide (n = 0%Z) then None else Some (int n)
      | None => None
      end
    else if decide (name = "temperature"%string) then
      match temperature args with
      | Some t => if decide (t = 0) then None else Some (float t)
      | None => None
      end
    else None.
Proof.
  unfold extra_args_of.
  destruct (max_tokens args) as [n|], (temperature args) as [t|];
    repeat case_bool_decide; repeat case_decide; simplify_eq;
    rewrite ?lookup_insert_eq, ?lookup_insert_ne, ?lookup_empty by done; done.
Qed.

(** When [main] calls [parse_pdf], [temperature] is among the extra
    arguments exactly when one was given that is not 0, and [max_tokens]
    likewise: a 0 is not passed on.  There is no other extra argument; the
    model and the provider URL are the ones given or else the defaults; and
    there is no prompt when no prompt file, or an empty name, was given. *)
Theorem main_call_arguments (cl : CommandLine) (environ dotenv files : gmap string string)
    (stdout : string) (kwargs : Kwargs Yaml) :
  main Yaml safe_load cl environ dotenv files = call_parse_pdf Yaml stdout kwargs →
  kw_extra_args Yaml kwargs !! "temperature"%string
  = match cl_temperature cl with
    | Some t => if decide (t = 0) then None else Some (float t)
    | None => None
    end
  ∧ kw_extra_args Yaml kwargs !! "max_tokens"%string
    = match cl_max_tokens cl with
      | Some n => if decide (n = 0%Z) then None else Some (int n)
      | None => None
      end
  ∧ (∀ name, name ≠ "temperature"%string → name ≠ "max_tokens"%string →
       kw_extra_args Yaml kwargs !! name = None)
  ∧ kw_model Yaml kwargs = default "gpt-4"%string (cl_model cl)
  ∧ kw_base_url Yaml kwargs = default "https://openrouter.ai/api/v1"%string (cl_base_url cl)
  ∧ (cl_prompt_file cl = None ∨ cl_prompt_file cl = Some EmptyString →
     kw_prompt Yaml kwargs = None).
Proof.
  unfold main. intros Hcall.
  assert (∃ api_key prompt,
            print_and_call Yaml (parse_args cl) api_key prompt
            = call_parse_pdf Yaml stdout kwargs
            ∧ (cl_prompt_file cl = None ∨ cl_prompt_file cl = Some EmptyString →
               prompt = None)) as (api_key & prompt & Hp & Hprompt).
  { revert Hcall. simpl. repeat case_match; intros Hcall; simplify_eq;
      eexists _, _; (split; [done|]); intros [?|?]; simplify_eq; try done.
    all: by match goal with H : truthy_str _ = true |- _ => vm_compute in H end. }
  unfold print_and_call in Hp. simplify_eq. simpl.
  rewrite !extra_args_of_lookup. simpl. split_and!; try done.
  intros name Ht Hm. rewrite extra_args_of_lookup. by rewrite !decide_False.
Qed.

End CliFacts.

(** ** The further theorems at work *)

Section MoreInstances.
Import Scenario Gallery.

Lemma two_figures_regions :
  _parse_rects (H := ideal) two_figures = Some [left_figure; right_figure].
Proof. vm_compute. reflexivity. Defined.

(** The left drawing lies within the one rectangle the merger returns. *)
Lemma merge_rects_loses_nothing_witness :
  left_drawing ∈ [left_drawing; right_drawing]
  ∧ ∃ y, y ∈ [both_drawings]
         ∧ covers (@bounds ideal y) (@bounds ideal left_drawing).
Proof.
  split; [left|].
  destruct (merge_rects_loses_nothing (H := ideal) (fl 10) None
              [left_drawing; right_drawing]) as (out & Hout & Hin & _).
  rewrite merge_drawings_10 in Hout. injection Hout as <-. apply Hin. left.
Defined.

(** At distance 4 the two drawings are returned as they are: they are
    settled. *)
Lemma merge_rects_fixed_points_witness :
  _merge_rects (H := ideal) [left_drawing; right_drawing] (fl 4) None
  = Some [left_drawing; right_drawing]
  ∧ settled (H := ideal) (fl 4) None [left_drawing; right_drawing].
Proof.
  split; [apply merge_drawings_4|].
  apply (merge_rects_fixed_points (H := ideal)). apply merge_drawings_4.
Defined.

End MoreInstances.
